(** * oscrypto._pkcs12: the PKCS#12 key derivation function

    A shallow embedding of [oscrypto/_pkcs12.py] (function [pkcs12_kdf],
    RFC 7292 appendix B.2) and the properties of it that the specification
    states.

    Conventions.
    - A Python byte string is a [list byte]; lengths and slice bounds are
      [nat] (every bound the function computes is non-negative), Python
      integers are [Z].
    - The function is embedded with the semantics of Python 3
      ([byte_cls = bytes], [chr_cls num = bytes([num])]).
    - The arguments of a call range over the values of [pyval]: byte
      strings, text, integers, [None], floats, byte arrays and lists.
    - [hashlib] is outside the repository: the digest provider is a variable
      of the development, and every call of it is recorded in a log, so
      that "no hashing" and "exactly n applications" are statements about
      the embedding.
    - [asn1crypto.int] is outside the repository as well; [int_from_bytes]
      and [int_to_bytes] are written after its unsigned Python 3 branch. *)

From Stdlib Require Import Strings.String Strings.Byte.
From Stdlib Require Import List ZArith NArith Lia Bool Arith.
Import ListNotations.

Local Open Scope nat_scope.

(* ------------------------------------------------------------------ *)
(** ** Byte strings *)

Module Bytes.

Definition bytes := list byte.

Definition byte_to_Z (b : byte) : Z := Z.of_N (Byte.to_N b).

(** [bytes([n])] for [0 <= n < 256]. *)
Definition byte_of_Z (z : Z) : byte :=
  match Byte.of_N (Z.to_N (z mod 256)) with
  | Some b => b
  | None => x00
  end.

(** Python slice [s[lo:hi]] for [0 <= lo], [0 <= hi]. *)
Definition slice (s : bytes) (lo hi : nat) : bytes :=
  skipn lo (firstn hi s).

(** Python slice [s[lo:]] for [0 <= lo]. *)
Definition slice_from (s : bytes) (lo : nat) : bytes := skipn lo s.

Definition bytes_eqb (a b : bytes) : bool :=
  if list_eq_dec Byte.byte_eq_dec a b then true else false.

(** [int(math.ceil(float(n) / d))].  The quotient of two floats that hold
    integers below 2^53 is rounded correctly, and for the divisors used
    here (at most 128) the rounded quotient has the ceiling of the exact
    one for every [n] below 2^49.  Memory is not modelled: a [key_length]
    beyond that asks for an accumulator [A] that no machine allocates. *)
Definition ceil_div (n d : nat) : nat := (n + d - 1) / d.

End Bytes.
Import Bytes.

(* ------------------------------------------------------------------ *)
(** ** asn1crypto.int (unsigned) *)

Module Asn1Int.

(** [int.from_bytes(value, 'big')]. *)
Definition int_from_bytes (value : bytes) : Z :=
  fold_left (fun acc b => acc * 256 + byte_to_Z b)%Z value 0%Z.

(** [value.bit_length()] for [0 <= value]. *)
Definition bit_length (value : Z) : nat :=
  match value with
  | Z0 => 0
  | Zpos p => Pos.to_nat (Pos.size p)
  | Zneg _ => 0
  end.

(** [value.to_bytes(width, byteorder='big')]: the [width] low-order bytes
    of [value], most significant first. *)
Fixpoint to_bytes (width : nat) (value : Z) : bytes :=
  match width with
  | 0 => []
  | S w => byte_of_Z (value / 256 ^ Z.of_nat w) :: to_bytes w value
  end.

(** [result.lstrip(b'\x00')]. *)
Fixpoint lstrip0 (s : bytes) : bytes :=
  match s with
  | x00 :: s' => lstrip0 s'
  | _ => s
  end.

(** [int_to_bytes(value)], unsigned, no width: the shortest big-endian
    encoding of [value],
    [value.to_bytes((value.bit_length() // 8) + 1, 'big').lstrip(b'\x00')].
    Releases of the library differ on the encoding of 0 (empty, or one zero
    byte); [pkcs12_kdf] only encodes sums that are at least 1. *)
Definition int_to_bytes (value : Z) : bytes :=
  lstrip0 (to_bytes (bit_length value / 8 + 1) value).

End Asn1Int.
Import Asn1Int.

(* ------------------------------------------------------------------ *)
(** ** [bytes.decode('utf-8')] and [str.encode('utf-16be')] *)

Module Codec.

Local Open Scope N_scope.

(** A Python 3 [str] is a sequence of code points. *)
Definition text := list N.

Definition in_range (lo hi x : N) : bool := (lo <=? x) && (x <=? hi).

Definition continuation (b : byte) : N := Byte.to_N b - 0x80.

(** Strict UTF-8 decoding (the well-formed byte sequences of the Unicode
    standard, table 3-7): overlong forms, surrogates and values above
    U+10FFFF are rejected.  [None] is [UnicodeDecodeError]. *)
Fixpoint utf8_decode (s : bytes) : option text :=
  match s with
  | [] => Some []
  | b0 :: s1 =>
    let n0 := Byte.to_N b0 in
    if n0 <=? 0x7F then option_map (cons n0) (utf8_decode s1)
    else if in_range 0xC2 0xDF n0 then
      match s1 with
      | b1 :: s2 =>
        if in_range 0x80 0xBF (Byte.to_N b1)
        then option_map (cons ((n0 - 0xC0) * 64 + continuation b1))
                        (utf8_decode s2)
        else None
      | _ => None
      end
    else if in_range 0xE0 0xEF n0 then
      match s1 with
      | b1 :: b2 :: s3 =>
        let lo1 := if n0 =? 0xE0 then 0xA0 else 0x80 in
        let hi1 := if n0 =? 0xED then 0x9F else 0xBF in
        if in_range lo1 hi1 (Byte.to_N b1) && in_range 0x80 0xBF (Byte.to_N b2)
        then option_map
               (cons ((n0 - 0xE0) * 4096 + continuation b1 * 64
                      + continuation b2))
               (utf8_decode s3)
        else None
      | _ => None
      end
    else if in_range 0xF0 0xF4 n0 then
      match s1 with
      | b1 :: b2 :: b3 :: s4 =>
        let lo1 := if n0 =? 0xF0 then 0x90 else 0x80 in
        let hi1 := if n0 =? 0xF4 then 0x8F else 0xBF in
        if in_range lo1 hi1 (Byte.to_N b1) && in_range 0x80 0xBF (Byte.to_N b2)
           && in_range 0x80 0xBF (Byte.to_N b3)
        then option_map
               (cons ((n0 - 0xF0) * 262144 + continuation b1 * 4096
                      + continuation b2 * 64 + continuation b3))
               (utf8_decode s4)
        else None
      | _ => None
      end
    else None
  end.

Definition byte_of_N (n : N) : byte := byte_of_Z (Z.of_N n).

(** One 16-bit unit, most significant byte first. *)
Definition unit16be (w : N) : bytes := [byte_of_N (w / 256); byte_of_N w].

(** UTF-16BE encoding without byte order mark.  A lone surrogate cannot be
    encoded: [None] is [UnicodeEncodeError]. *)
Fixpoint utf16be_encode (t : text) : option bytes :=
  match t with
  | [] => Some []
  | cp :: t' =>
    if in_range 0xD800 0xDFFF cp then None
    else
      let units :=
        if cp <? 0x10000 then unit16be cp
        else unit16be (0xD800 + (cp - 0x10000) / 0x400)
             ++ unit16be (0xDC00 + (cp - 0x10000) mod 0x400) in
      option_map (app units) (utf16be_encode t')
  end.

End Codec.
Import Codec.

(* ------------------------------------------------------------------ *)
(** ** Python values, exceptions and the effect of a call *)

Module Py.

(** A [float]: the number [m * 2 ^ e], an infinity, or a NaN. *)
Inductive pyfloat :=
| Finite (m e : Z)
| Infinity (negative : bool)
| NaN.

(** The values a caller can pass for a parameter of [pkcs12_kdf]: byte
    strings, text, integers, [None], floats, and of the values that have
    no hash byte arrays and lists.  An instance of a subclass stands here
    as the value of its base class, which is how [isinstance], the
    comparisons and [bytes([x])] treat it: [True] and [False] are the
    integers 1 and 0. *)
#[warnings="-register-all"]
Inductive pyval :=
| PyBytes (b : bytes)
| PyStr (s : string)
| PyInt (n : Z)
| PyNone
| PyFloat (x : pyfloat)
| PyByteArray (b : bytes)
| PyList (items : list pyval).

(** [x.__class__.__name__]. *)
Definition class_name (x : pyval) : string :=
  match x with
  | PyBytes _ => "bytes"
  | PyStr _ => "str"
  | PyInt _ => "int"
  | PyNone => "NoneType"
  | PyFloat _ => "float"
  | PyByteArray _ => "bytearray"
  | PyList _ => "list"
  end.

(** [hash(x)] returns: a byte array or a list has no hash. *)
Definition hashable (x : pyval) : bool :=
  match x with
  | PyByteArray _ | PyList _ => false
  | _ => true
  end.

(** [x == n] for a float [x] and an integer [n]; the comparison of Python
    is exact. *)
Definition float_eqb_int (x : pyfloat) (n : Z) : bool :=
  match x with
  | Finite m e =>
    if (0 <=? e)%Z then (m * 2 ^ e =? n)%Z else (m =? n * 2 ^ (- e))%Z
  | _ => false
  end.

(** [x == n] for an integer [n]: an integer or a float can be equal to it,
    no other value of [pyval] is. *)
Definition eqb_int (x : pyval) (n : Z) : bool :=
  match x with
  | PyInt k => (k =? n)%Z
  | PyFloat f => float_eqb_int f n
  | _ => false
  end.

Inductive exc_class :=
| TypeError
| ValueError
| KeyError
| UnicodeDecodeError
| UnicodeEncodeError.

(** The text of an exception: the format string of the [raise] statement
    together with the value that is formatted into it. *)
Inductive message :=
| password_must_be_a_byte_string_not (cls : string)
| salt_must_be_a_byte_string_not (cls : string)
| iterations_must_be_an_integer_not (cls : string)
| iterations_must_be_greater_than_0_is (value : Z)
| key_length_must_be_an_integer_not (cls : string)
| key_length_must_be_greater_than_0_is (value : Z)
| hash_algorithm_must_be_one_of_not (value : pyval)
| id_must_be_one_of_1_2_3_not (value : pyval)
| codec_cannot_convert
| missing_key (key : string)
| unhashable_type (cls : string)
| object_cannot_be_interpreted_as_an_integer (cls : string)
| bytes_must_be_in_range_0_256.

Record exception := Exception { exc_type : exc_class; exc_msg : message }.

Inductive outcome (A : Type) :=
| Returns (a : A)
| Raises (e : exception)
| Diverges.
Arguments Returns {A} a.
Arguments Raises {A} e.
Arguments Diverges {A}.

(** The digest calls made so far, oldest first: algorithm name and the
    message that was hashed. *)
Definition log := list (string * bytes).

(** A computation reads and extends the log and ends in an outcome. *)
Definition M (A : Type) := log -> outcome A * log.

Definition ret {A} (a : A) : M A := fun l => (Returns a, l).

Definition raise {A} (e : exception) : M A := fun l => (Raises e, l).

Definition diverge {A} : M A := fun l => (Diverges, l).

Definition bind {A B} (m : M A) (k : A -> M B) : M B :=
  fun l =>
    match m l with
    | (Returns a, l') => k a l'
    | (Raises e, l') => (Raises e, l')
    | (Diverges, l') => (Diverges, l')
    end.

(** A [while] loop run with a bound on its iterations; [None] is a loop
    the bound did not suffice for. *)
Definition terminated {A} (o : option A) : M A :=
  match o with
  | Some a => ret a
  | None => diverge
  end.

End Py.
Import Py.

Notation "x <- m ;; k" := (bind m (fun x => k))
  (at level 61, m at next level, right associativity).
Notation "m ;;; k" := (bind m (fun _ => k))
  (at level 61, right associativity).

(* ------------------------------------------------------------------ *)
(** ** The steps of [pkcs12_kdf] that do not hash *)

Module Steps.

(** [if not isinstance(x, byte_cls): raise ValueError(... % x.__class__.__name__)] *)
Definition check_bytes (msg : string -> message) (x : pyval) : M bytes :=
  match x with
  | PyBytes b => ret b
  | _ => raise (Exception ValueError (msg (class_name x)))
  end.

(** [if not isinstance(x, int_types): raise ValueError(... % x.__class__.__name__)] *)
Definition check_int (msg : string -> message) (x : pyval) : M Z :=
  match x with
  | PyInt n => ret n
  | _ => raise (Exception ValueError (msg (class_name x)))
  end.

(** [if x < 1: raise ValueError(... % repr(x))] *)
Definition check_positive (msg : Z -> message) (x : Z) : M unit :=
  if (x <? 1)%Z then raise (Exception ValueError (msg x)) else ret tt.

Definition hash_names : list string :=
  ["md5"; "sha1"; "sha224"; "sha256"; "sha384"; "sha512"]%string.

Definition name_in (s : string) (names : list string) : bool :=
  existsb (String.eqb s) names.

(** [if hash_algorithm not in {'md5', ..., 'sha512'}: raise ValueError(...)].
    The test hashes its left operand first, which raises [TypeError] for a
    value without a hash; of the values with one, only a [str] is equal to
    a member of the set. *)
Definition check_hash_algorithm (x : pyval) : M string :=
  if hashable x then
    match x with
    | PyStr s =>
      if name_in s hash_names then ret s
      else raise (Exception ValueError (hash_algorithm_must_be_one_of_not x))
    | _ => raise (Exception ValueError (hash_algorithm_must_be_one_of_not x))
    end
  else raise (Exception TypeError (unhashable_type (class_name x))).

(** [if id_ not in {1, 2, 3}: raise ValueError(...)].  The test hashes its
    left operand first; a value with a hash is in the set when it is equal
    to 1, 2 or 3, which an integer or a float can be.  The value itself
    goes on to step 1. *)
Definition check_id (x : pyval) : M pyval :=
  if hashable x then
    if existsb (eqb_int x) [1; 2; 3]%Z then ret x
    else raise (Exception ValueError (id_must_be_one_of_1_2_3_not x))
  else raise (Exception TypeError (unhashable_type (class_name x))).

(** [chr_cls(num)], that is [bytes([num])]: one byte for an integer from 0
    to 255. *)
Definition chr_cls (num : pyval) : M bytes :=
  match num with
  | PyInt n =>
    if ((0 <=? n) && (n <? 256))%Z then ret [byte_of_Z n]
    else raise (Exception ValueError bytes_must_be_in_range_0_256)
  | _ => raise (Exception TypeError
                  (object_cannot_be_interpreted_as_an_integer (class_name num)))
  end.

(** [password.decode('utf-8').encode('utf-16be') + b'\x00\x00'] *)
Definition utf16_password_of (password : bytes) : M bytes :=
  match utf8_decode password with
  | None => raise (Exception UnicodeDecodeError codec_cannot_convert)
  | Some t =>
    match utf16be_encode t with
    | None => raise (Exception UnicodeEncodeError codec_cannot_convert)
    | Some e => ret (e ++ [x00; x00])
    end
  end.

(** The dictionary of line 79. *)
Definition u_table (hash_algorithm : string) : option nat :=
  if String.eqb hash_algorithm "md5" then Some 16
  else if String.eqb hash_algorithm "sha1" then Some 20
  else if String.eqb hash_algorithm "sha224" then Some 28
  else if String.eqb hash_algorithm "sha256" then Some 32
  else if String.eqb hash_algorithm "sha384" then Some 48
  else if String.eqb hash_algorithm "sha512" then Some 64
  else None.

Definition u_of (hash_algorithm : string) : M nat :=
  match u_table hash_algorithm with
  | Some u => ret u
  | None => raise (Exception KeyError (missing_key hash_algorithm))
  end.

(** [if hash_algorithm in ['sha384', 'sha512']: v = 128 else: v = 64] *)
Definition v_of (hash_algorithm : string) : nat :=
  if name_in hash_algorithm ["sha384"; "sha512"]%string then 128 else 64.

(** Step 1 for an integer [id_] from 0 to 255: [v] times the byte [id_]. *)
Definition D_of (id_ : Z) (v : nat) : bytes := repeat (byte_of_Z id_) v.

(** Step 1: [D = chr_cls(id_) * v] *)
Definition step_1 (id_ : pyval) (v : nat) : M bytes :=
  c <- chr_cls id_ ;; ret (concat (repeat c v)).

(** [while len(acc) < target: acc += piece], at most [fuel] rounds. *)
Fixpoint while_extend (fuel : nat) (acc piece : bytes) (target : nat)
  : option bytes :=
  if length acc <? target then
    match fuel with
    | 0 => None
    | S fuel' => while_extend fuel' (acc ++ piece) piece target
    end
  else Some acc.

(** Steps 2 and 3, the same statements over [salt] and over
    [utf16_password]:
    [X = b''
     if src != b'':
         x_len = v * int(math.ceil(float(len(src)) / v))
         while len(X) < x_len: X += src
         X = X[0:x_len]] *)
Definition stretch (v : nat) (src : bytes) : option bytes :=
  if negb (bytes_eqb src []) then
    let x_len := v * ceil_div (length src) v in
    option_map (fun X => slice X 0 x_len) (while_extend x_len [] src x_len)
  else Some [].

(** Step 6B:
    [B = b''
     while len(B) < v: B += A2
     B = int_from_bytes(B[0:v]) + 1] *)
Definition B_of (v : nat) (A2 : bytes) : option Z :=
  option_map (fun B => (int_from_bytes (slice B 0 v) + 1)%Z)
             (while_extend v [] A2 v).

(** The body of the loop of step 6C, for one [j]. *)
Definition step_6C_chunk (v : nat) (B : Z) (I : bytes) (j : nat) : bytes :=
  let start := j * v in
  let end_ := (j + 1) * v in
  let I_j := slice I start end_ in
  let I_j := int_to_bytes (int_from_bytes I_j + B) in
  let I_j_l := length I_j in
  let I_j := if v <? I_j_l then slice_from I_j (I_j_l - v) else I_j in
  slice I 0 start ++ I_j ++ slice_from I end_.

(** Step 6C: [for j in range(0, len(I) // v): ...]; the range is computed
    once, from the length [I] has when the loop starts. *)
Definition step_6C (v : nat) (B : Z) (I : bytes) : bytes :=
  fold_left (step_6C_chunk v B) (seq 0 (length I / v)) I.

(** Step 7:
    [begin = (i - 1) * u
     to_copy = min(key_length, u)
     A = A[0:begin] + A2[0:to_copy] + A[begin+to_copy:]] *)
Definition step_7 (u key_length i : nat) (A A2 : bytes) : bytes :=
  let begin := (i - 1) * u in
  let to_copy := Nat.min key_length u in
  slice A 0 begin ++ slice A2 0 to_copy ++ slice_from A (begin + to_copy).

End Steps.
Import Steps.

(* ------------------------------------------------------------------ *)
(** ** [pkcs12_kdf] *)

Section Derivation.

(** [getattr(hashlib, name)(message).digest()] *)
Variable hashlib : string -> bytes -> bytes.

Definition digest (hash_algorithm : string) (message : bytes) : M bytes :=
  fun l => (Returns (hashlib hash_algorithm message),
            l ++ [(hash_algorithm, message)]).

(** [for _ in range(2, iterations + 1): A2 = algo(A2).digest()], given the
    number of elements of the range. *)
Fixpoint rehash (algo : string) (rounds : nat) (A2 : bytes) : M bytes :=
  match rounds with
  | 0 => ret A2
  | S rounds' => A2' <- digest algo A2 ;; rehash algo rounds' A2'
  end.

(** Step 6A. *)
Definition step_6A (algo : string) (iterations : Z) (D I : bytes) : M bytes :=
  A2 <- digest algo (D ++ I) ;;
  rehash algo (Z.to_nat (iterations + 1 - 2)) A2.

(** One round of [for i in range(1, c + 1)]. *)
Definition loop_body (algo : string) (iterations : Z) (u v key_length c : nat)
           (D : bytes) (i : nat) (st : bytes * bytes) : M (bytes * bytes) :=
  let I := fst st in
  let A := snd st in
  A2 <- step_6A algo iterations D I ;;
  I <- (if i <? c
        then B <- terminated (B_of v A2) ;; ret (step_6C v B I)
        else ret I) ;;
  ret (I, step_7 u key_length i A A2).

(** [rounds] rounds of the loop, the first of them for [i]. *)
Fixpoint main_loop (algo : string) (iterations : Z) (u v key_length c : nat)
         (D : bytes) (rounds i : nat) (st : bytes * bytes)
  : M (bytes * bytes) :=
  match rounds with
  | 0 => ret st
  | S rounds' =>
    st' <- loop_body algo iterations u v key_length c D i st ;;
    main_loop algo iterations u v key_length c D rounds' (S i) st'
  end.

Definition pkcs12_kdf
           (hash_algorithm password salt iterations key_length id_ : pyval)
  : M bytes :=
  password <- check_bytes password_must_be_a_byte_string_not password ;;
  salt <- check_bytes salt_must_be_a_byte_string_not salt ;;
  iterations <- check_int iterations_must_be_an_integer_not iterations ;;
  check_positive iterations_must_be_greater_than_0_is iterations ;;;
  key_length <- check_int key_length_must_be_an_integer_not key_length ;;
  check_positive key_length_must_be_greater_than_0_is key_length ;;;
  hash_algorithm <- check_hash_algorithm hash_algorithm ;;
  id_ <- check_id id_ ;;
  utf16_password <- utf16_password_of password ;;
  let algo := hash_algorithm in
  u <- u_of hash_algorithm ;;
  let v := v_of hash_algorithm in
  D <- step_1 id_ v ;;
  S <- terminated (stretch v salt) ;;
  P <- terminated (stretch v utf16_password) ;;
  let I := S ++ P in
  let key_length := Z.to_nat key_length in
  let c := ceil_div key_length u in
  let A := repeat x00 (c * u) in
  st <- main_loop algo iterations u v key_length c D c 1 (I, A) ;;
  ret (slice (snd st) 0 key_length).

End Derivation.

(* ------------------------------------------------------------------ *)
(** ** SHA-1

    [hashlib.sha1(message).digest()] after FIPS 180-4, to run the function
    with the digest it is called with in practice. *)

Module SHA1.

Local Open Scope Z_scope.

Definition word (x : Z) : Z := x mod 2 ^ 32.

Definition rotl (n x : Z) : Z :=
  Z.lor (word (Z.shiftl x n)) (Z.shiftr x (32 - n)).

(** The message followed by the bit 1, zeros, and its length in bits as a
    64-bit integer, a multiple of 64 bytes in all. *)
Definition pad (message : bytes) : bytes :=
  let len := length message in
  message ++ [x80] ++ repeat x00 ((64 - (len + 9) mod 64) mod 64)%nat
          ++ to_bytes 8 (8 * Z.of_nat len).

Fixpoint words (n : nat) (s : bytes) : list Z :=
  match n with
  | O => []
  | S n' => int_from_bytes (firstn 4 s) :: words n' (skipn 4 s)
  end.

(** The message schedule, most recent word first. *)
Fixpoint schedule (n : nat) (w : list Z) : list Z :=
  match n with
  | O => w
  | S n' =>
    schedule n' (rotl 1 (Z.lxor (Z.lxor (nth 2 w 0) (nth 7 w 0))
                                (Z.lxor (nth 13 w 0) (nth 15 w 0))) :: w)
  end.

Definition f (t : nat) (b c d : Z) : Z :=
  if (t <? 20)%nat then Z.lor (Z.land b c) (Z.land (Z.lnot b) d)
  else if (t <? 40)%nat then Z.lxor (Z.lxor b c) d
  else if (t <? 60)%nat
       then Z.lor (Z.lor (Z.land b c) (Z.land b d)) (Z.land c d)
  else Z.lxor (Z.lxor b c) d.

Definition K (t : nat) : Z :=
  if (t <? 20)%nat then 0x5A827999
  else if (t <? 40)%nat then 0x6ED9EBA1
  else if (t <? 60)%nat then 0x8F1BBCDC
  else 0xCA62C1D6.

Definition state := (Z * Z * Z * Z * Z)%type.

Definition round (st : state) (tw : nat * Z) : state :=
  let '(a, b, c, d, e) := st in
  let '(t, w) := tw in
  (word (rotl 5 a + f t b c d + e + K t + w), a, rotl 30 b, c, d).

Definition compress (h : state) (block : bytes) : state :=
  let w := rev (schedule 64 (rev (words 16 block))) in
  let '(a, b, c, d, e) := fold_left round (combine (seq 0 80) w) h in
  let '(h0, h1, h2, h3, h4) := h in
  (word (h0 + a), word (h1 + b), word (h2 + c), word (h3 + d), word (h4 + e)).

Fixpoint blocks (n : nat) (h : state) (s : bytes) : state :=
  match n with
  | O => h
  | S n' => blocks n' (compress h (firstn 64 s)) (skipn 64 s)
  end.

Definition sha1 (message : bytes) : bytes :=
  let p := pad message in
  let '(h0, h1, h2, h3, h4) :=
    blocks (length p / 64)
           (0x67452301, 0xEFCDAB89, 0x98BADCFE, 0x10325476, 0xC3D2E1F0) p in
  to_bytes 4 h0 ++ to_bytes 4 h1 ++ to_bytes 4 h2 ++ to_bytes 4 h3
           ++ to_bytes 4 h4.

End SHA1.

(* ------------------------------------------------------------------ *)
(** ** Definitions used to state the properties *)

(** The six names the function accepts are the keys of the dictionary. *)
Definition supported (hash_algorithm : string) : Prop :=
  In hash_algorithm hash_names.

(** The messages hashed by [n] chained applications of a digest to [m]:
    [m], then the digest of [m], and so on. *)
Fixpoint hash_chain (H : bytes -> bytes) (algo : string) (n : nat) (m : bytes)
  : log :=
  match n with
  | 0 => []
  | S n' => (algo, m) :: hash_chain H algo n' (H m)
  end.

(** A computation whose outcome and digest calls do not depend on the log
    it starts from. *)
Definition oblivious {A} (m : M A) : Prop :=
  exists r t, forall l, m l = (r, l ++ t).

(** The value step 6A computes from [I]: the digest of [D + I], digested
    again once for every element of [range(2, iterations + 1)]. *)
Definition block (hashlib : string -> bytes -> bytes) (algo : string)
           (iterations : Z) (D I : bytes) : bytes :=
  Nat.iter (Z.to_nat (iterations + 1 - 2)) (hashlib algo) (hashlib algo (D ++ I)).

(** The digest calls of step 6A. *)
Definition block_calls (hashlib : string -> bytes -> bytes) (algo : string)
           (iterations : Z) (D I : bytes) : log :=
  hash_chain (hashlib algo) algo (S (Z.to_nat (iterations + 1 - 2))) (D ++ I).

(** [I] after steps 6B and 6C of a round that started with [I]. *)
Definition next_I (hashlib : string -> bytes -> bytes) (algo : string)
           (iterations : Z) (v : nat) (D I : bytes) : bytes :=
  match B_of v (block hashlib algo iterations D I) with
  | Some B => step_6C v B I
  | None => I
  end.

(** The first [n] blocks, one after the other, each computed from the [I]
    the previous round left. *)
Fixpoint keystream (hashlib : string -> bytes -> bytes) (algo : string)
         (iterations : Z) (v : nat) (D : bytes) (n : nat) (I : bytes) : bytes :=
  match n with
  | 0 => []
  | S n' =>
    block hashlib algo iterations D I
    ++ keystream hashlib algo iterations v D n'
                 (next_I hashlib algo iterations v D I)
  end.

(** [I] after [n] rounds that each updated it. *)
Fixpoint I_after (hashlib : string -> bytes -> bytes) (algo : string)
         (iterations : Z) (v : nat) (D : bytes) (n : nat) (I : bytes) : bytes :=
  match n with
  | 0 => I
  | S n' =>
    I_after hashlib algo iterations v D n'
            (next_I hashlib algo iterations v D I)
  end.

(** The result of step 2 or 3 when its loop ends. *)
Definition stretched (v : nat) (src : bytes) : bytes :=
  match stretch v src with
  | Some X => X
  | None => []
  end.

(** The arguments pass every check of lines 50 to 72: password and salt
    are byte strings, iterations and key_length integers that are at least
    1, hash_algorithm one of the six names, and [id_] a value with a hash
    that is equal to 1, 2 or 3, which an integer or a float can be. *)
Definition passes_checks
           (hash_algorithm password salt iterations key_length id_ : pyval)
  : Prop :=
  exists algo p s n k,
    hash_algorithm = PyStr algo /\ password = PyBytes p /\ salt = PyBytes s
    /\ iterations = PyInt n /\ key_length = PyInt k
    /\ supported algo /\ (1 <= n)%Z /\ (1 <= k)%Z
    /\ hashable id_ = true /\ existsb (eqb_int id_) [1; 2; 3]%Z = true.

(** The arguments pass the checks and [id_] is an integer.  That is less
    than passing the checks: a float that is equal to 1, 2 or 3 passes line
    71 and is refused by [bytes([id_])] at line 94. *)
Definition accepted
           (hash_algorithm password salt iterations key_length id_ : pyval)
  : Prop :=
  passes_checks hash_algorithm password salt iterations key_length id_
  /\ exists i, id_ = PyInt i.

(** The checks of lines 50 to 66 pass, and line 68 or line 71 is reached
    with a left operand that has no hash. *)
Definition unhashable_operand
           (hash_algorithm password salt iterations key_length id_ : pyval)
  : Prop :=
  exists p s n k,
    password = PyBytes p /\ salt = PyBytes s
    /\ iterations = PyInt n /\ key_length = PyInt k
    /\ (1 <= n)%Z /\ (1 <= k)%Z
    /\ (hashable hash_algorithm = false
        \/ ((exists algo, hash_algorithm = PyStr algo /\ supported algo)
            /\ hashable id_ = false)).

(* ------------------------------------------------------------------ *)
(** ** A digest provider to run the function with *)

(** SHA-1 for sha1, and for the five other names a stand-in with the output size of the table, its
    bytes a running sum over the message. *)
Definition checksum_digest (hash_algorithm : string) (message : bytes) : bytes :=
  let n := match u_table hash_algorithm with Some u => u | None => 0 end in
  let s := fold_left (fun acc b => (acc * 31 + byte_to_Z b + 7) mod 65521)%Z
                     message 1%Z in
  map (fun k => byte_of_Z (s * (Z.of_nat k + 3) / 5)) (seq 0 n).

Definition hashlib_model (hash_algorithm : string) (message : bytes) : bytes :=
  if String.eqb hash_algorithm "sha1" then SHA1.sha1 message
  else checksum_digest hash_algorithm message.

(** The call [pkcs12_kdf('sha1', b'a', b'\x01\x84', 1, 40, 1)]: its [I]
    before the first round, and the key it returns. *)
Definition short_chunk_I : bytes :=
  stretched 64 [x01; x84] ++ stretched 64 [x00; x61; x00; x00].

Definition short_chunk_key : bytes :=
  [x00; x26; x95; xe5; x5b; xae; xad; xa7; x57; x3e;
   xf0; x46; xbf; x75; x65; xe7; x21; xaa; xa4; x87;
   xd1; xe6; x46; xee; xe4; x34; xd5; xfb; x01; x45;
   x2f; xd0; xe5; x8d; xd1; x57; x62; x08; x5a; x64].

(** What a call returned, [d] if it did not return. *)
Definition returned {A} (d : A) (r : outcome A * log) : A :=
  match fst r with
  | Returns a => a
  | _ => d
  end.

(* ------------------------------------------------------------------ *)
(** * Properties *)

Example utf8_decode_ascii :
  utf8_decode ["s"; "m"; "e"; "g"]%byte = Some [115; 109; 101; 103]%N.
Proof. reflexivity. Qed.

Example int_to_bytes_258 : int_to_bytes 258 = [x01; x02].
Proof. reflexivity. Qed.

Example int_to_bytes_65535 : int_to_bytes 65535 = [xff; xff].
Proof. reflexivity. Qed.

Example int_from_bytes_0102 : int_from_bytes [x00; x01; x02] = 258%Z.
Proof. reflexivity. Qed.


(** ** Bytes and big-endian integers *)

Lemma byte_to_Z_range (b : byte) : (0 <= byte_to_Z b < 256)%Z.
Proof.
  unfold byte_to_Z. pose proof (Byte.to_N_bounded b). lia.
Qed.

Lemma byte_to_of_Z (z : Z) : byte_to_Z (byte_of_Z z) = (z mod 256)%Z.
Proof.
  unfold byte_of_Z, byte_to_Z.
  pose proof (Z.mod_pos_bound z 256 ltac:(lia)) as Hr.
  destruct (Byte.of_N (Z.to_N (z mod 256))) as [b|] eqn:E.
  - apply Byte.to_of_N in E. rewrite E. lia.
  - apply Byte.of_N_None_iff in E. lia.
Qed.

Lemma length_slice0 (s : bytes) (n : nat) :
  n <= length s -> length (slice s 0 n) = n.
Proof.
  intros. unfold slice. rewrite skipn_O, length_firstn. lia.
Qed.

Lemma bytes_eqb_nil (s : bytes) : bytes_eqb s [] = true <-> s = [].
Proof.
  unfold bytes_eqb. destruct (list_eq_dec byte_eq_dec s []); split; congruence.
Qed.

Lemma ceil_div_bounds (n d : nat) :
  0 < d -> n <= d * ceil_div n d < n + d.
Proof.
  intros Hd. unfold ceil_div.
  pose proof (Nat.div_mod_eq (n + d - 1) d).
  pose proof (Nat.mod_upper_bound (n + d - 1) d). nia.
Qed.

Lemma ceil_div_pos (n d : nat) : 0 < d -> 0 < n -> 0 < ceil_div n d.
Proof.
  intros Hd Hn. pose proof (ceil_div_bounds n d Hd). nia.
Qed.

(** ** The bounded [while] loops end *)

Lemma while_extend_ends (piece : bytes) (target : nat) :
  piece <> [] ->
  forall fuel acc,
    target - length acc <= fuel ->
    exists r, while_extend fuel acc piece target = Some r
              /\ target <= length r.
Proof.
  intros Hp. induction fuel as [|fuel IH]; intros acc Hf; simpl.
  - destruct (Nat.ltb_spec (length acc) target); [lia|].
    exists acc. split; [reflexivity|lia].
  - destruct (Nat.ltb_spec (length acc) target).
    + apply IH. rewrite length_app.
      destruct piece; [congruence|]. simpl. lia.
    + exists acc. split; [reflexivity|lia].
Qed.

Lemma stretch_ends (v : nat) (src : bytes) :
  exists X, stretch v src = Some X
            /\ length X = (if bytes_eqb src [] then 0
                           else v * ceil_div (length src) v).
Proof.
  unfold stretch. destruct (bytes_eqb src []) eqn:E; simpl.
  - exists []. split; reflexivity.
  - assert (Hs : src <> []).
    { intro Hs. apply bytes_eqb_nil in Hs. congruence. }
    destruct (while_extend_ends src (v * ceil_div (length src) v) Hs
                (v * ceil_div (length src) v) []) as (r & Hr & Hlen).
    { simpl. lia. }
    rewrite Hr. simpl. eexists. split; [reflexivity|].
    apply length_slice0. exact Hlen.
Qed.

Lemma B_of_ends (v : nat) (A2 : bytes) :
  A2 <> [] -> exists B, B_of v A2 = Some B.
Proof.
  intros HA. unfold B_of.
  destruct (while_extend_ends A2 v HA v []) as (r & Hr & _).
  { simpl. lia. }
  rewrite Hr. simpl. eauto.
Qed.

(** ** The effect monad *)

Lemma oblivious_ret {A} (a : A) : oblivious (ret a).
Proof. exists (Returns a), []. intros l. unfold ret. now rewrite app_nil_r. Qed.

Lemma oblivious_raise {A} (e : exception) : oblivious (@raise A e).
Proof. exists (Raises e), []. intros l. unfold raise. now rewrite app_nil_r. Qed.

Lemma oblivious_diverge {A} : oblivious (@diverge A).
Proof. exists Diverges, []. intros l. unfold diverge. now rewrite app_nil_r. Qed.

Lemma oblivious_terminated {A} (o : option A) : oblivious (terminated o).
Proof.
  destruct o; [apply oblivious_ret | apply oblivious_diverge].
Qed.

Lemma oblivious_bind {A B} (m : M A) (k : A -> M B) :
  oblivious m -> (forall a, oblivious (k a)) -> oblivious (bind m k).
Proof.
  intros (r & t & Hm) Hk. destruct r as [a|e|].
  - destruct (Hk a) as (r' & t' & Hka).
    exists r', (t ++ t'). intros l. unfold bind.
    rewrite Hm, Hka, app_assoc. reflexivity.
  - exists (Raises e), t. intros l. unfold bind. now rewrite Hm.
  - exists Diverges, t. intros l. unfold bind. now rewrite Hm.
Qed.

Lemma bind_returns {A B} (m : M A) (k : A -> M B) (a : A) (l l' : log) :
  m l = (Returns a, l') -> bind m k l = k a l'.
Proof. intros Hm. unfold bind. now rewrite Hm. Qed.

Lemma bind_raises {A B} (m : M A) (k : A -> M B) (e : exception) (l l' : log) :
  m l = (Raises e, l') -> bind m k l = (Raises e, l').
Proof. intros Hm. unfold bind. now rewrite Hm. Qed.

Create HintDb oblivious.
#[local] Hint Resolve oblivious_ret oblivious_raise oblivious_diverge
  oblivious_terminated : oblivious.

(** ** The rounds of the main loop *)

Section Rounds.

Variable hashlib : string -> bytes -> bytes.

Lemma oblivious_digest algo m : oblivious (digest hashlib algo m).
Proof. exists (Returns (hashlib algo m)), [(algo, m)]. reflexivity. Qed.

Lemma oblivious_rehash algo rounds :
  forall A2, oblivious (rehash hashlib algo rounds A2).
Proof.
  induction rounds as [|n IH]; intros A2; simpl.
  - apply oblivious_ret.
  - apply oblivious_bind; [apply oblivious_digest | exact IH].
Qed.

Lemma oblivious_loop_body algo iterations u v key_length c D i st :
  oblivious (loop_body hashlib algo iterations u v key_length c D i st).
Proof.
  unfold loop_body, step_6A.
  apply oblivious_bind.
  { apply oblivious_bind; [apply oblivious_digest|]. apply oblivious_rehash. }
  intros A2. apply oblivious_bind; [|auto with oblivious].
  destruct (i <? c); [|auto with oblivious].
  apply oblivious_bind; auto with oblivious.
Qed.

Lemma oblivious_main_loop algo iterations u v key_length c D rounds :
  forall i st,
    oblivious (main_loop hashlib algo iterations u v key_length c D rounds i st).
Proof.
  induction rounds as [|n IH]; intros i st; simpl.
  - apply oblivious_ret.
  - apply oblivious_bind; [apply oblivious_loop_body | intros; apply IH].
Qed.

Lemma rehash_run algo rounds :
  forall A2 l,
    rehash hashlib algo rounds A2 l
    = (Returns (Nat.iter rounds (hashlib algo) A2),
       l ++ hash_chain (hashlib algo) algo rounds A2).
Proof.
  induction rounds as [|n IH]; intros A2 l.
  - simpl. unfold ret. now rewrite app_nil_r.
  - cbn [rehash hash_chain]. unfold bind, digest. rewrite IH.
    rewrite Nat.iter_succ_r, <- app_assoc. reflexivity.
Qed.

Lemma step_6A_run algo iterations D I l :
  step_6A hashlib algo iterations D I l
  = (Returns (block hashlib algo iterations D I),
     l ++ block_calls hashlib algo iterations D I).
Proof.
  unfold step_6A, block, block_calls, bind, digest.
  rewrite rehash_run. cbn [hash_chain]. rewrite <- app_assoc. reflexivity.
Qed.

End Rounds.

Section Loop.

Variable hashlib : string -> bytes -> bytes.
Variable algo : string.
Variable iterations : Z.
Variables u v key_length c : nat.
Variable D : bytes.

Hypothesis u_pos : 0 < u.
Hypothesis digest_size : forall m, length (hashlib algo m) = u.

Local Abbreviation body := (loop_body hashlib algo iterations u v key_length c D).
Local Abbreviation loop := (main_loop hashlib algo iterations u v key_length c D).
Local Abbreviation blk := (block hashlib algo iterations D).
Local Abbreviation nxt := (next_I hashlib algo iterations v D).

Lemma block_length I : length (blk I) = u.
Proof.
  unfold block.
  destruct (Z.to_nat (iterations + 1 - 2)); simpl; apply digest_size.
Qed.

Lemma block_nonempty I : blk I <> [].
Proof.
  intros E. pose proof (block_length I) as Hl. rewrite E in Hl. simpl in Hl. lia.
Qed.

Lemma loop_body_run i I A l :
  body i (I, A) l
  = (Returns (if i <? c then nxt I else I, step_7 u key_length i A (blk I)),
     l ++ block_calls hashlib algo iterations D I).
Proof.
  unfold loop_body. cbn [fst snd].
  erewrite bind_returns by apply step_6A_run.
  destruct (i <? c).
  - unfold next_I.
    destruct (B_of_ends v _ (block_nonempty I)) as [B HB].
    rewrite HB. reflexivity.
  - reflexivity.
Qed.

(** A property of the state that every round keeps holds after any number
    of rounds, and the rounds return. *)
Lemma main_loop_rule (Inv : nat -> bytes * bytes -> Prop) rounds :
  forall i st l,
    Inv i st ->
    (forall j st l, i <= j < i + rounds -> Inv j st ->
       exists st' l', body j st l = (Returns st', l') /\ Inv (S j) st') ->
    exists st' l', loop rounds i st l = (Returns st', l')
                   /\ Inv (i + rounds) st'.
Proof.
  induction rounds as [|n IH]; intros i st l Hinv Hstep.
  - exists st, l. rewrite Nat.add_0_r. split; [reflexivity|assumption].
  - destruct (Hstep i st l ltac:(lia) Hinv) as (st1 & l1 & Hb & Hinv1).
    cbn [main_loop]. erewrite bind_returns by exact Hb.
    destruct (IH (S i) st1 l1 Hinv1) as (st' & l' & Hl & Hinv').
    { intros j st2 l2 Hj. apply Hstep. lia. }
    exists st', l'. split; [exact Hl|].
    replace (i + S n) with (S i + n) by lia. exact Hinv'.
Qed.

(** Step 7 overwrites one stretch of [A] and keeps its length. *)
Lemma step_7_length i A A2 n :
  length A = n -> length A2 = u -> (i - 1) * u + Nat.min key_length u <= n ->
  length (step_7 u key_length i A A2) = n.
Proof.
  intros HA HA2 Hn. unfold step_7, slice, slice_from.
  rewrite !length_app, !skipn_O, !length_firstn, length_skipn. lia.
Qed.

Lemma step_7_written i A A2 :
  length A2 = u -> (i - 1) * u + Nat.min key_length u <= length A ->
  firstn ((i - 1) * u + Nat.min key_length u) (step_7 u key_length i A A2)
  = firstn ((i - 1) * u) A ++ firstn (Nat.min key_length u) A2.
Proof.
  intros HA2 HA. unfold step_7, slice, slice_from. rewrite !skipn_O.
  rewrite app_assoc.
  rewrite firstn_app.
  rewrite length_app, !length_firstn.
  replace ((i - 1) * u + Nat.min key_length u
           - (Nat.min ((i - 1) * u) (length A)
              + Nat.min (Nat.min key_length u) (length A2))) with 0 by lia.
  rewrite firstn_O, app_nil_r.
  apply firstn_all2. rewrite length_app, !length_firstn. lia.
Qed.

Local Abbreviation stream := (keystream hashlib algo iterations v D).
Local Abbreviation I_at := (I_after hashlib algo iterations v D).

Lemma I_after_last n : forall I, I_at (S n) I = nxt (I_at n I).
Proof.
  induction n as [|n IH]; intros I; [reflexivity|].
  cbn [I_after] in *. now rewrite IH.
Qed.

Lemma keystream_last n : forall I, stream (S n) I = stream n I ++ blk (I_at n I).
Proof.
  induction n as [|n IH]; intros I.
  - simpl. now rewrite app_nil_r.
  - change (stream (S (S n)) I) with (blk I ++ stream (S n) (nxt I)).
    rewrite IH. cbn [keystream I_after]. now rewrite app_assoc.
Qed.

Lemma keystream_length n : forall I, length (stream n I) = n * u.
Proof.
  induction n as [|n IH]; intros I; [reflexivity|].
  cbn [keystream]. rewrite length_app, IH, block_length. lia.
Qed.

Lemma keystream_more n k : forall I, exists rest, stream (n + k) I = stream n I ++ rest.
Proof.
  induction n as [|n IH]; intros I.
  - exists (stream k I). reflexivity.
  - destruct (IH (nxt I)) as [rest Hr].
    exists rest. cbn [Nat.add keystream]. rewrite Hr, app_assoc. reflexivity.
Qed.

(** [A] keeps its length in every round, and the rounds return. *)
Lemma main_loop_length rounds I0 A0 l :
  length A0 = c * u -> rounds <= c ->
  exists st' l', loop rounds 1 (I0, A0) l = (Returns st', l')
                 /\ length (snd st') = c * u.
Proof.
  intros HA Hr.
  destruct (main_loop_rule (fun _ st => length (snd st) = c * u) rounds
              1 (I0, A0) l HA) as (st' & l' & Hl & Hinv).
  - intros j [I A] l1 Hj Hinv. rewrite loop_body_run.
    eexists _, _. split; [reflexivity|]. cbn [snd] in *.
    apply step_7_length; [assumption | apply block_length | nia].
  - eauto.
Qed.

(** When a block fits into the requested length, the rounds write the
    blocks of the key stream one after the other. *)
Lemma main_loop_stream rounds I0 A0 l :
  length A0 = c * u -> rounds <= c -> u <= key_length ->
  exists I' A' l',
    loop rounds 1 (I0, A0) l = (Returns (I', A'), l')
    /\ length A' = c * u
    /\ firstn (rounds * u) A' = stream rounds I0.
Proof.
  intros HA Hr Hk.
  destruct (main_loop_rule
              (fun j st => length (snd st) = c * u
                           /\ firstn ((j - 1) * u) (snd st) = stream (j - 1) I0
                           /\ (j <= c -> fst st = I_at (j - 1) I0))
              rounds 1 (I0, A0) l) as ([I' A'] & l' & Hl & Hlen & Hpre & _).
  - cbn [fst snd]. repeat split; auto.
  - intros j [I A] l1 Hj (Hlen & Hpre & HI). cbn [fst snd] in *.
    rewrite loop_body_run. eexists _, _. split; [reflexivity|].
    cbn [fst snd]. rewrite HI by lia.
    assert (Hmin : Nat.min key_length u = u) by lia.
    split; [|split].
    + apply step_7_length; [assumption | apply block_length | nia].
    + replace (S j - 1) with (S (j - 1)) by lia.
      rewrite keystream_last, <- Hpre.
      pose proof (step_7_written j A (blk (I_at (j - 1) I0))
                    (block_length _)) as Hw.
      rewrite Hmin in Hw.
      replace (S (j - 1) * u) with ((j - 1) * u + u) by lia.
      rewrite Hw by nia.
      f_equal. apply firstn_all2. rewrite block_length. lia.
    + intros Hj'. destruct (Nat.ltb_spec j c); [|lia].
      replace (S j - 1) with (S (j - 1)) by lia.
      now rewrite I_after_last.
  - cbn [snd] in *. exists I', A', l'. repeat split; auto.
    replace (1 + rounds - 1) with rounds in Hpre by lia. exact Hpre.
Qed.

(** What the loop leaves in [A], cut to the requested length. *)
Lemma main_loop_result I0 l :
  0 < key_length -> c = ceil_div key_length u ->
  exists st' l',
    loop c 1 ((I0, repeat x00 (c * u)) : bytes * bytes) l = (Returns st', l')
    /\ slice (snd st') 0 key_length = firstn key_length (stream c I0).
Proof.
  intros Hk Hc.
  pose proof (ceil_div_bounds key_length u u_pos) as Hb. rewrite <- Hc in Hb.
  destruct (Nat.le_gt_cases u key_length) as [Hle|Hlt].
  - destruct (main_loop_stream c I0 (repeat x00 (c * u)) l)
      as (I' & A' & l' & Hl & Hlen & Hpre); auto using repeat_length.
    exists (I', A'), l'. split; [exact Hl|]. cbn [snd].
    unfold slice. rewrite skipn_O. f_equal.
    rewrite <- Hpre. symmetry. apply firstn_all2. lia.
  - assert (Hc1 : c = 1) by nia.
    cut (forall r, r = 1 ->
           exists st' l',
             loop r 1 ((I0, repeat x00 (c * u)) : bytes * bytes) l
             = (Returns st', l')
             /\ slice (snd st') 0 key_length = firstn key_length (stream r I0)).
    { intros Hcut. apply Hcut. exact Hc1. }
    intros r ->.
    cbn [main_loop]. erewrite bind_returns by apply loop_body_run.
    eexists _, _. split; [reflexivity|]. cbn [snd keystream].
    rewrite app_nil_r.
    pose proof (step_7_written 1 (repeat x00 (c * u)) (blk I0)
                  (block_length _)) as Hw.
    replace (Nat.min key_length u) with key_length in Hw by lia.
    cbn [Nat.sub Nat.mul Nat.add firstn app] in Hw.
    unfold slice. rewrite skipn_O, Hw; [reflexivity|].
    rewrite repeat_length. lia.
Qed.

(** The first digest call of the loop is on [D + I]. *)
Lemma main_loop_first_call rounds I0 A0 l :
  exists rest,
    snd (loop (S rounds) 1 (I0, A0) l) = l ++ (algo, D ++ I0) :: rest.
Proof.
  cbn [main_loop]. erewrite bind_returns by apply loop_body_run.
  destruct (oblivious_main_loop hashlib algo iterations u v key_length c D
              rounds 2
              (if 1 <? c then nxt I0 else I0,
               step_7 u key_length 1 A0 (blk I0))) as (r & t & Ht).
  rewrite Ht. cbn [snd]. unfold block_calls. cbn [hash_chain].
  rewrite <- app_assoc. cbn [app]. eauto.
Qed.

End Loop.

(** ** The codecs *)

Lemma in_range_spec lo hi x :
  in_range lo hi x = true <-> (lo <= x /\ x <= hi)%N.
Proof.
  unfold in_range. rewrite andb_true_iff, !N.leb_le. reflexivity.
Qed.

Lemma in_range_false lo hi x :
  (x < lo \/ hi < x)%N -> in_range lo hi x = false.
Proof.
  intros H. destruct (in_range lo hi x) eqn:E; [|reflexivity].
  apply in_range_spec in E. lia.
Qed.

Ltac decode_step :=
  match goal with
  | H : None = Some _ |- _ => discriminate H
  | H : option_map _ ?o = Some _ |- _ =>
    let E := fresh "E" in destruct o eqn:E; cbn [option_map] in H;
                          [injection H as <- | discriminate H]
  | H : context [if ?c then _ else _] |- _ =>
    let E := fresh "C" in destruct c eqn:E
  | H : context [match ?s with [] => _ | _ :: _ => _ end] |- _ =>
    destruct s
  end.

Ltac range_facts :=
  repeat match goal with
         | H : _ && _ = true |- _ => apply andb_true_iff in H; destruct H
         | H : in_range _ _ _ = true |- _ => apply in_range_spec in H
         | H : (_ <=? _)%N = true |- _ => apply N.leb_le in H
         | H : (_ <=? _)%N = false |- _ => apply N.leb_gt in H
         | H : (_ =? _)%N = true |- _ => apply N.eqb_eq in H
         | H : (_ =? _)%N = false |- _ => apply N.eqb_neq in H
         end.

Lemma utf8_decode_scalars n :
  forall s t, length s <= n -> utf8_decode s = Some t ->
              Forall (fun cp => in_range 0xD800 0xDFFF cp = false) t.
Proof.
  induction n as [|n IH]; intros s t Hlen Hd.
  - destruct s; [|simpl in Hlen; lia]. injection Hd as <-. constructor.
  - destruct s as [|b0 s1]; [injection Hd as <-; constructor|].
    cbn [utf8_decode] in Hd. cbv zeta in Hd. cbn [length] in Hlen.
    repeat decode_step;
      (constructor;
       [ unfold continuation in *; range_facts; apply in_range_false; lia
       | eapply IH; [|eassumption]; cbn [length] in Hlen; lia ]).
Qed.

Lemma utf16be_encode_scalars t :
  Forall (fun cp => in_range 0xD800 0xDFFF cp = false) t ->
  exists e, utf16be_encode t = Some e.
Proof.
  induction 1 as [|cp t Hcp _ [e He]]; [exists []; reflexivity|].
  cbn [utf16be_encode]. rewrite Hcp, He. cbn [option_map]. eauto.
Qed.

(** Text decoded from UTF-8 can always be encoded as UTF-16. *)
Lemma utf16_password_of_decodable password t l :
  utf8_decode password = Some t ->
  exists e, utf16be_encode t = Some e
            /\ utf16_password_of password l = (Returns (e ++ [x00; x00]), l).
Proof.
  intros Hd.
  destruct (utf16be_encode_scalars t) as [e He].
  { eapply utf8_decode_scalars; [apply Nat.le_refl | exact Hd]. }
  exists e. split; [exact He|].
  unfold utf16_password_of. rewrite Hd, He. reflexivity.
Qed.

Lemma utf16_password_of_undecodable password l :
  utf8_decode password = None ->
  utf16_password_of password l
  = (Raises (Exception UnicodeDecodeError codec_cannot_convert), l).
Proof.
  intros Hd. unfold utf16_password_of. rewrite Hd. reflexivity.
Qed.

(** ** The digest parameters *)

Lemma u_table_supported hash_algorithm :
  supported hash_algorithm <-> exists u, u_table hash_algorithm = Some u.
Proof.
  unfold supported, hash_names. split.
  - cbn [In]. intros [<-|[<-|[<-|[<-|[<-|[<-|[]]]]]]]; eexists; reflexivity.
  - intros [u Hu]. unfold u_table in Hu. cbn [In].
    repeat match type of Hu with
           | (if String.eqb ?a ?b then _ else _) = _ =>
             destruct (String.eqb_spec a b); [subst; tauto|]
           end.
    discriminate.
Qed.

Lemma name_in_spec s names : name_in s names = true <-> In s names.
Proof.
  unfold name_in. rewrite existsb_exists. split.
  - intros (x & Hin & He). apply String.eqb_eq in He. now subst.
  - intros Hin. exists s. split; [exact Hin | apply String.eqb_refl].
Qed.

Lemma u_table_pos hash_algorithm u : u_table hash_algorithm = Some u -> 0 < u.
Proof.
  unfold u_table.
  repeat match goal with
         | |- (if ?c then _ else _) = _ -> _ => destruct c
         end; intros [=]; lia.
Qed.

Lemma v_of_pos hash_algorithm : 0 < v_of hash_algorithm.
Proof. unfold v_of. destruct (name_in _ _); lia. Qed.

(** ** The whole function on checked arguments *)

Ltac ret_step := unfold bind at 1; cbn [ret].

(** ** The set membership tests of lines 68 and 71 *)

Lemma eqb_int_member id :
  existsb (eqb_int id) [1; 2; 3]%Z = true ->
  (exists i, id = PyInt i /\ In i [1; 2; 3]%Z) \/ (exists f, id = PyFloat f).
Proof.
  intros E. destruct id; try (cbn in E; discriminate E).
  - left. exists n. split; [reflexivity|].
    apply existsb_exists in E. destruct E as (x & Hin & He).
    cbn [eqb_int] in He. apply Z.eqb_eq in He. now subst x.
  - right. now exists x.
Qed.

Lemma member_eqb_int i :
  In i [1; 2; 3]%Z -> existsb (eqb_int (PyInt i)) [1; 2; 3]%Z = true.
Proof.
  intros Hi. apply existsb_exists. exists i.
  split; [exact Hi | apply Z.eqb_refl].
Qed.

Lemma not_member_eqb_int id :
  (forall i, In i [1; 2; 3]%Z -> eqb_int id i = false) ->
  existsb (eqb_int id) [1; 2; 3]%Z = false.
Proof.
  intros H. cbn [existsb]. rewrite !H by (cbn [In]; auto). reflexivity.
Qed.

Lemma accepted_passes_checks h pw s it kl id :
  accepted h pw s it kl id -> passes_checks h pw s it kl id.
Proof.
  intros [Hp _]. exact Hp.
Qed.

Lemma passes_checks_int h pw s it kl i :
  passes_checks h pw s it kl (PyInt i) -> accepted h pw s it kl (PyInt i).
Proof.
  intros Hp. split; [exact Hp | now exists i].
Qed.

Ltac not_passing :=
  right; intros (?&?&?&?&?&?&?&?&?&?&?&?&?&?&?); discriminate.

Lemma passes_checks_dec h pw s it kl id :
  passes_checks h pw s it kl id \/ ~ passes_checks h pw s it kl id.
Proof.
  unfold passes_checks.
  destruct pw as [p| | | | | |]; try not_passing.
  destruct s as [b| | | | | |]; try not_passing.
  destruct it as [| |n| | | |]; try not_passing.
  destruct kl as [| |k| | | |]; try not_passing.
  destruct h as [|algo| | | | |]; try not_passing.
  destruct (Z.lt_ge_cases n 1) as [Hn|Hn].
  { right. intros (?&?&?&?&?&?&?&?&E&?&?&?&?&?&?). injection E as <-. lia. }
  destruct (Z.lt_ge_cases k 1) as [Hk|Hk].
  { right. intros (?&?&?&?&?&?&?&?&?&E&?&?&?&?&?). injection E as <-. lia. }
  destruct (in_dec string_dec algo hash_names) as [Hs|Hs].
  2:{ right. intros (?&?&?&?&?&E&?&?&?&?&?&?&?&?&?). injection E as <-.
      contradiction. }
  destruct (hashable id) eqn:Hh.
  2:{ right. intros (?&?&?&?&?&?&?&?&?&?&?&?&?&?&?). discriminate. }
  destruct (existsb (eqb_int id) [1; 2; 3]%Z) eqn:Hi.
  2:{ right. intros (?&?&?&?&?&?&?&?&?&?&?&?&?&?&?). discriminate. }
  left. exists algo, p, b, n, k. repeat split; assumption.
Qed.

(** ** Step 1 *)

Lemma concat_repeat_one {A} (a : A) n : concat (repeat [a] n) = repeat a n.
Proof. induction n as [|n IH]; [reflexivity|]. cbn. now rewrite IH. Qed.

Lemma step_1_int i v l :
  In i [1; 2; 3]%Z -> step_1 (PyInt i) v l = (Returns (D_of i v), l).
Proof.
  intros Hi. unfold step_1, D_of. cbn [chr_cls].
  assert (E : ((0 <=? i) && (i <? 256))%Z = true).
  { cbn [In] in Hi. apply andb_true_intro. split; [apply Z.leb_le | apply Z.ltb_lt]; lia. }
  rewrite E. unfold bind, ret.
  exact (f_equal (fun D => (Returns D, l)) (concat_repeat_one (byte_of_Z i) v)).
Qed.

(** The checks of lines 50 to 66 on arguments that pass them. *)
Ltac past_positive :=
  unfold pkcs12_kdf; cbn [check_bytes check_int];
  do 3 ret_step; unfold check_positive at 1;
  match goal with
  | |- context [(?x <? 1)%Z] => destruct (Z.ltb_spec x 1); [lia|]
  end;
  do 2 ret_step; unfold check_positive at 1;
  match goal with
  | |- context [(?x <? 1)%Z] => destruct (Z.ltb_spec x 1); [lia|]
  end;
  ret_step.

(** The checks of lines 50 to 72 on arguments that pass them. *)
Ltac past_checks Hs Hhash Hid :=
  past_positive;
  unfold check_hash_algorithm; cbn [hashable]; rewrite Hs; ret_step;
  unfold check_id; rewrite Hhash, Hid; ret_step.

Section Checks.

Variable hashlib : string -> bytes -> bytes.

Local Abbreviation kdf := (pkcs12_kdf hashlib).

Lemma reject_password h pw s it kl id l :
  (forall b, pw <> PyBytes b) ->
  kdf h pw s it kl id l
  = (Raises (Exception ValueError
               (password_must_be_a_byte_string_not (class_name pw))), l).
Proof.
  intros Hpw. destruct pw; try reflexivity. now destruct (Hpw b).
Qed.

Lemma reject_salt h p s it kl id l :
  (forall b, s <> PyBytes b) ->
  kdf h (PyBytes p) s it kl id l
  = (Raises (Exception ValueError
               (salt_must_be_a_byte_string_not (class_name s))), l).
Proof.
  intros Hs. destruct s; try reflexivity. now destruct (Hs b).
Qed.

Lemma reject_iterations_type h p s it kl id l :
  (forall n, it <> PyInt n) ->
  kdf h (PyBytes p) (PyBytes s) it kl id l
  = (Raises (Exception ValueError
               (iterations_must_be_an_integer_not (class_name it))), l).
Proof.
  intros Hit. destruct it; try reflexivity. now destruct (Hit n).
Qed.

Lemma reject_iterations h p s n kl id l :
  (n < 1)%Z ->
  kdf h (PyBytes p) (PyBytes s) (PyInt n) kl id l
  = (Raises (Exception ValueError
               (iterations_must_be_greater_than_0_is n)), l).
Proof.
  intros Hn. unfold pkcs12_kdf. cbn [check_bytes check_int].
  do 3 ret_step. unfold check_positive at 1.
  destruct (Z.ltb_spec n 1); [reflexivity | lia].
Qed.

Lemma reject_key_length_type h p s n kl id l :
  (1 <= n)%Z -> (forall k, kl <> PyInt k) ->
  kdf h (PyBytes p) (PyBytes s) (PyInt n) kl id l
  = (Raises (Exception ValueError
               (key_length_must_be_an_integer_not (class_name kl))), l).
Proof.
  intros Hn Hkl. unfold pkcs12_kdf. cbn [check_bytes check_int].
  do 3 ret_step. unfold check_positive at 1.
  destruct (Z.ltb_spec n 1); [lia|]. ret_step.
  destruct kl; try reflexivity. now destruct (Hkl n0).
Qed.

Lemma reject_key_length h p s n k id l :
  (1 <= n)%Z -> (k < 1)%Z ->
  kdf h (PyBytes p) (PyBytes s) (PyInt n) (PyInt k) id l
  = (Raises (Exception ValueError
               (key_length_must_be_greater_than_0_is k)), l).
Proof.
  intros Hn Hk. unfold pkcs12_kdf. cbn [check_bytes check_int].
  do 3 ret_step. unfold check_positive at 1.
  destruct (Z.ltb_spec n 1); [lia|]. do 2 ret_step.
  unfold check_positive at 1.
  destruct (Z.ltb_spec k 1); [reflexivity | lia].
Qed.

Lemma reject_hash_algorithm h p s n k id l :
  (1 <= n)%Z -> (1 <= k)%Z -> hashable h = true ->
  (forall algo, h = PyStr algo -> ~ supported algo) ->
  kdf h (PyBytes p) (PyBytes s) (PyInt n) (PyInt k) id l
  = (Raises (Exception ValueError (hash_algorithm_must_be_one_of_not h)), l).
Proof.
  intros Hn Hk Hhash Hh. past_positive.
  unfold check_hash_algorithm. rewrite Hhash.
  destruct h; try reflexivity.
  destruct (name_in s0 hash_names) eqn:E; [|reflexivity].
  apply name_in_spec in E. now destruct (Hh s0 eq_refl).
Qed.

Lemma unhashable_hash_algorithm h p s n k id l :
  (1 <= n)%Z -> (1 <= k)%Z -> hashable h = false ->
  kdf h (PyBytes p) (PyBytes s) (PyInt n) (PyInt k) id l
  = (Raises (Exception TypeError (unhashable_type (class_name h))), l).
Proof.
  intros Hn Hk Hhash. past_positive.
  unfold check_hash_algorithm. rewrite Hhash. reflexivity.
Qed.

Lemma reject_id algo p s n k id l :
  (1 <= n)%Z -> (1 <= k)%Z -> supported algo -> hashable id = true ->
  (forall i, In i [1; 2; 3]%Z -> eqb_int id i = false) ->
  kdf (PyStr algo) (PyBytes p) (PyBytes s) (PyInt n) (PyInt k) id l
  = (Raises (Exception ValueError (id_must_be_one_of_1_2_3_not id)), l).
Proof.
  intros Hn Hk Hs Hhash Hid. past_positive.
  unfold check_hash_algorithm. cbn [hashable].
  apply name_in_spec in Hs. rewrite Hs. ret_step.
  unfold check_id. rewrite Hhash, (not_member_eqb_int id Hid). reflexivity.
Qed.

Lemma unhashable_id algo p s n k id l :
  (1 <= n)%Z -> (1 <= k)%Z -> supported algo -> hashable id = false ->
  kdf (PyStr algo) (PyBytes p) (PyBytes s) (PyInt n) (PyInt k) id l
  = (Raises (Exception TypeError (unhashable_type (class_name id))), l).
Proof.
  intros Hn Hk Hs Hhash. past_positive.
  unfold check_hash_algorithm. cbn [hashable].
  apply name_in_spec in Hs. rewrite Hs. ret_step.
  unfold check_id. rewrite Hhash. reflexivity.
Qed.

Ltac no_unhashable_operand :=
  intros (? & ? & ? & ? & Ep & Eb & En & Ek & ? & ? & Hh);
  try discriminate Ep; try discriminate Eb;
  try discriminate En; try discriminate Ek;
  try (injection En as <-; lia); try (injection Ek as <-; lia);
  destruct Hh as [Hh|((? & Eh & ?) & Hh)];
  try discriminate Hh; try discriminate Eh; try congruence;
  try (injection Eh as <-; contradiction).

(** Arguments that do not pass the checks end in an exception, with the
    log as it was: a [TypeError] when line 68 or line 71 is reached with a
    value that has no hash, a [ValueError] in every other case. *)
Lemma rejected h pw s it kl id l :
  ~ passes_checks h pw s it kl id ->
  exists e,
    kdf h pw s it kl id l = (Raises e, l)
    /\ (unhashable_operand h pw s it kl id -> exc_type e = TypeError)
    /\ (~ unhashable_operand h pw s it kl id -> exc_type e = ValueError).
Proof.
  intros Hnp.
  assert (Hv : forall msg,
             kdf h pw s it kl id l = (Raises (Exception ValueError msg), l) ->
             ~ unhashable_operand h pw s it kl id ->
             exists e,
               kdf h pw s it kl id l = (Raises e, l)
               /\ (unhashable_operand h pw s it kl id -> exc_type e = TypeError)
               /\ (~ unhashable_operand h pw s it kl id
                   -> exc_type e = ValueError)).
  { intros msg Hr Hnu. eexists. split; [exact Hr|].
    split; [intros Hu; contradiction | reflexivity]. }
  assert (Ht : forall msg,
             kdf h pw s it kl id l = (Raises (Exception TypeError msg), l) ->
             unhashable_operand h pw s it kl id ->
             exists e,
               kdf h pw s it kl id l = (Raises e, l)
               /\ (unhashable_operand h pw s it kl id -> exc_type e = TypeError)
               /\ (~ unhashable_operand h pw s it kl id
                   -> exc_type e = ValueError)).
  { intros msg Hr Hu. eexists. split; [exact Hr|].
    split; [reflexivity | intros Hnu; contradiction]. }
  destruct pw as [p| | | | | |];
    try (eapply Hv; [apply reject_password; discriminate
                    | no_unhashable_operand]).
  destruct s as [b| | | | | |];
    try (eapply Hv; [apply reject_salt; discriminate
                    | no_unhashable_operand]).
  destruct it as [| |n| | | |];
    try (eapply Hv; [apply reject_iterations_type; discriminate
                    | no_unhashable_operand]).
  destruct (Z.lt_ge_cases n 1) as [Hn|Hn];
    [eapply Hv; [apply reject_iterations; exact Hn | no_unhashable_operand]|].
  destruct kl as [| |k| | | |];
    try (eapply Hv; [apply reject_key_length_type; [exact Hn | discriminate]
                    | no_unhashable_operand]).
  destruct (Z.lt_ge_cases k 1) as [Hk|Hk];
    [eapply Hv; [apply reject_key_length; assumption
                | no_unhashable_operand]|].
  destruct (hashable h) eqn:Hhash.
  2:{ eapply Ht; [apply unhashable_hash_algorithm; assumption|].
      exists p, b, n, k. repeat split; auto. }
  destruct h as [|algo| | | | |]; try discriminate Hhash;
    try (eapply Hv; [apply reject_hash_algorithm;
                     [assumption..|discriminate]
                    | no_unhashable_operand]).
  destruct (in_dec string_dec algo hash_names) as [Hs|Hs].
  2:{ eapply Hv; [apply reject_hash_algorithm; try assumption;
                  intros a [= <-]; exact Hs
                 | no_unhashable_operand]. }
  destruct (hashable id) eqn:Hid.
  2:{ eapply Ht; [apply unhashable_id; assumption|].
      exists p, b, n, k. repeat split; auto. right. split; [eauto|exact Hid]. }
  destruct (existsb (eqb_int id) [1; 2; 3]%Z) eqn:Hi.
  { destruct Hnp. exists algo, p, b, n, k. repeat split; assumption. }
  eapply Hv; [|no_unhashable_operand].
  apply reject_id; try assumption.
  intros i Hin. destruct (eqb_int id i) eqn:E; [|reflexivity].
  assert (existsb (eqb_int id) [1; 2; 3]%Z = true); [|congruence].
  apply existsb_exists. eauto.
Qed.

End Checks.

Section Call.

Variable hashlib : string -> bytes -> bytes.

Hypothesis digest_size :
  forall algo u m, u_table algo = Some u -> length (hashlib algo m) = u.

(** The checks pass, and what is left is the rounds of the loop. *)
Lemma pkcs12_kdf_checked algo password salt iterations key_length id_ u e l :
  u_table algo = Some u ->
  (1 <= iterations)%Z -> (1 <= key_length)%Z -> In id_ [1; 2; 3]%Z ->
  utf16_password_of password l = (Returns e, l) ->
  pkcs12_kdf hashlib (PyStr algo) (PyBytes password) (PyBytes salt)
             (PyInt iterations) (PyInt key_length) (PyInt id_) l
  = bind (main_loop hashlib algo iterations u (v_of algo)
                    (Z.to_nat key_length)
                    (ceil_div (Z.to_nat key_length) u)
                    (D_of id_ (v_of algo))
                    (ceil_div (Z.to_nat key_length) u) 1
                    ((stretched (v_of algo) salt ++ stretched (v_of algo) e,
                      repeat x00 (ceil_div (Z.to_nat key_length) u * u))
                     : bytes * bytes))
         (fun st => ret (slice (snd st) 0 (Z.to_nat key_length))) l.
Proof.
  intros Hu Hi Hk Hid Hp.
  match goal with |- _ = ?r => set (rhs := r) end.
  assert (Hs : name_in algo hash_names = true).
  { apply name_in_spec, u_table_supported. eauto. }
  pose proof (member_eqb_int id_ Hid) as Hid'.
  past_checks Hs (eq_refl : hashable (PyInt id_) = true) Hid'.
  erewrite bind_returns by exact Hp.
  unfold u_of. rewrite Hu. ret_step.
  erewrite bind_returns by (apply step_1_int; exact Hid).
  destruct (stretch_ends (v_of algo) salt) as (S & HS & _).
  destruct (stretch_ends (v_of algo) e) as (P & HP & _).
  subst rhs. unfold stretched. rewrite HS, HP.
  cbn [terminated]. do 2 ret_step. reflexivity.
Qed.

Lemma pkcs12_kdf_accepted algo password salt iterations key_length id_ u t l :
  u_table algo = Some u ->
  (1 <= iterations)%Z -> (1 <= key_length)%Z -> In id_ [1; 2; 3]%Z ->
  utf8_decode password = Some t ->
  exists e rest,
    utf16be_encode t = Some e
    /\ pkcs12_kdf hashlib (PyStr algo) (PyBytes password) (PyBytes salt)
                  (PyInt iterations) (PyInt key_length) (PyInt id_) l
       = (Returns
            (firstn (Z.to_nat key_length)
                    (keystream hashlib algo iterations (v_of algo)
                               (D_of id_ (v_of algo))
                               (ceil_div (Z.to_nat key_length) u)
                               (stretched (v_of algo) salt
                                ++ stretched (v_of algo) (e ++ [x00; x00])))),
          l ++ (algo, D_of id_ (v_of algo)
                      ++ stretched (v_of algo) salt
                      ++ stretched (v_of algo) (e ++ [x00; x00])) :: rest).
Proof.
  intros Hu Hi Hk Hid Hd.
  destruct (utf16_password_of_decodable password t l Hd) as (e & He & Hp).
  pose proof (u_table_pos _ _ Hu) as Hupos.
  assert (Hsize : forall m, length (hashlib algo m) = u).
  { intros m. now apply digest_size. }
  remember (Z.to_nat key_length) as kl eqn:Ekl.
  remember (ceil_div kl u) as c eqn:Ec.
  remember (stretched (v_of algo) salt
            ++ stretched (v_of algo) (e ++ [x00; x00])) as I0 eqn:EI.
  destruct (main_loop_result hashlib algo iterations u (v_of algo) kl c
              (D_of id_ (v_of algo)) Hupos Hsize I0 l)
    as (st' & l' & Hl & Hout); [lia | exact Ec |].
  assert (Hc : c = S (c - 1)).
  { pose proof (ceil_div_pos kl u Hupos). lia. }
  destruct (main_loop_first_call hashlib algo iterations u (v_of algo) kl c
              (D_of id_ (v_of algo)) Hupos Hsize (c - 1) I0
              (repeat x00 (c * u)) l) as (rest & Hrest).
  rewrite <- Hc in Hrest.
  assert (Hlog : l' = l ++ (algo, D_of id_ (v_of algo) ++ I0) :: rest).
  { pose proof (f_equal snd Hl) as Hl2. cbn [snd] in Hl2.
    rewrite <- Hl2. exact Hrest. }
  exists e, rest. split; [exact He|].
  rewrite (pkcs12_kdf_checked algo password salt iterations key_length id_ u
             (e ++ [x00; x00]) l Hu Hi Hk Hid Hp).
  rewrite <- Ekl, <- Ec, <- EI. erewrite bind_returns by exact Hl.
  unfold ret. rewrite Hout, Hlog, EI. reflexivity.
Qed.

(** Line 74 comes first after the checks: a password that does not decode
    ends the call there, whatever passed line 71. *)
Lemma pkcs12_kdf_undecodable_id algo password salt iterations key_length id_ l :
  supported algo ->
  (1 <= iterations)%Z -> (1 <= key_length)%Z ->
  hashable id_ = true -> existsb (eqb_int id_) [1; 2; 3]%Z = true ->
  utf8_decode password = None ->
  pkcs12_kdf hashlib (PyStr algo) (PyBytes password) (PyBytes salt)
             (PyInt iterations) (PyInt key_length) id_ l
  = (Raises (Exception UnicodeDecodeError codec_cannot_convert), l).
Proof.
  intros Hs Hi Hk Hhash Hid Hd.
  apply name_in_spec in Hs.
  past_checks Hs Hhash Hid.
  erewrite bind_raises; [reflexivity|].
  now apply utf16_password_of_undecodable.
Qed.

Lemma pkcs12_kdf_undecodable algo password salt iterations key_length id_ l :
  supported algo ->
  (1 <= iterations)%Z -> (1 <= key_length)%Z -> In id_ [1; 2; 3]%Z ->
  utf8_decode password = None ->
  pkcs12_kdf hashlib (PyStr algo) (PyBytes password) (PyBytes salt)
             (PyInt iterations) (PyInt key_length) (PyInt id_) l
  = (Raises (Exception UnicodeDecodeError codec_cannot_convert), l).
Proof.
  intros Hs Hi Hk Hid Hd.
  apply pkcs12_kdf_undecodable_id; auto using member_eqb_int.
Qed.

(** A float that passed line 71 ends the call at line 94, after the
    password has been decoded and before any digest is computed. *)
Lemma pkcs12_kdf_float_id algo password salt iterations key_length f t l :
  supported algo ->
  (1 <= iterations)%Z -> (1 <= key_length)%Z ->
  existsb (eqb_int (PyFloat f)) [1; 2; 3]%Z = true ->
  utf8_decode password = Some t ->
  pkcs12_kdf hashlib (PyStr algo) (PyBytes password) (PyBytes salt)
             (PyInt iterations) (PyInt key_length) (PyFloat f) l
  = (Raises (Exception TypeError
               (object_cannot_be_interpreted_as_an_integer "float")), l).
Proof.
  intros Hs Hi Hk Hid Hd.
  destruct (proj1 (u_table_supported algo) Hs) as [u Hu].
  destruct (utf16_password_of_decodable password t l Hd) as (e & He & Hp).
  apply name_in_spec in Hs.
  past_checks Hs (eq_refl : hashable (PyFloat f) = true) Hid.
  erewrite bind_returns by exact Hp.
  unfold u_of. rewrite Hu. ret_step.
  reflexivity.
Qed.

(** A call that returns was made with arguments that pass the checks and a
    password that decodes, and returns the start of the key stream. *)
Lemma pkcs12_kdf_returns_inv h pw s it kl id l out l' :
  pkcs12_kdf hashlib h pw s it kl id l = (Returns out, l') ->
  exists algo p b n k i u t e,
    h = PyStr algo /\ pw = PyBytes p /\ s = PyBytes b /\ it = PyInt n
    /\ kl = PyInt k /\ id = PyInt i
    /\ u_table algo = Some u /\ (1 <= n)%Z /\ (1 <= k)%Z /\ In i [1; 2; 3]%Z
    /\ utf8_decode p = Some t /\ utf16be_encode t = Some e
    /\ out = firstn (Z.to_nat k)
                    (keystream hashlib algo n (v_of algo) (D_of i (v_of algo))
                               (ceil_div (Z.to_nat k) u)
                               (stretched (v_of algo) b
                                ++ stretched (v_of algo) (e ++ [x00; x00]))).
Proof.
  intros Hr.
  destruct (passes_checks_dec h pw s it kl id) as [Ha|Hna].
  2:{ destruct (rejected hashlib h pw s it kl id l Hna) as (e0 & Hm & _).
      rewrite Hm in Hr. discriminate. }
  destruct Ha as (algo & p & b & n & k & -> & -> & -> & -> & ->
                  & Hs & Hn & Hk & Hhash & Hid).
  destruct (proj1 (u_table_supported algo) Hs) as [u Hu].
  destruct (utf8_decode p) as [t|] eqn:Hd.
  2:{ rewrite pkcs12_kdf_undecodable_id in Hr by assumption. discriminate. }
  destruct (eqb_int_member id Hid) as [(i & -> & Hi)|(f & ->)].
  2:{ rewrite (pkcs12_kdf_float_id algo p b n k f t l) in Hr by assumption.
      discriminate. }
  destruct (pkcs12_kdf_accepted algo p b n k i u t l Hu Hn Hk Hi Hd)
    as (e & rest & He & Hrun).
  rewrite Hrun in Hr. injection Hr as <- _.
  exists algo, p, b, n, k, i, u, t, e. repeat split; auto.
Qed.

End Call.

(** ** The stand-in digest provider *)

Lemma checksum_digest_size algo u m :
  u_table algo = Some u -> length (checksum_digest algo m) = u.
Proof.
  intros Hu. unfold checksum_digest. rewrite Hu, length_map, length_seq.
  reflexivity.
Qed.

Lemma hash_chain_length H algo n : forall m, length (hash_chain H algo n m) = n.
Proof.
  induction n as [|n IH]; intros m; [reflexivity|].
  cbn [hash_chain length]. now rewrite IH.
Qed.

Lemma hash_chain_nth H algo n :
  forall m k, k < n ->
              nth_error (hash_chain H algo n m) k = Some (algo, Nat.iter k H m).
Proof.
  induction n as [|n IH]; intros m k Hk; [lia|].
  destruct k as [|k]; [reflexivity|].
  cbn [hash_chain nth_error]. rewrite IH by lia.
  now rewrite Nat.iter_succ_r.
Qed.

(** ** The encoding of integers and the chunks of step 6C *)

Lemma to_bytes_length width value : length (to_bytes width value) = width.
Proof.
  induction width as [|w IH]; [reflexivity|]. cbn [to_bytes length]. now rewrite IH.
Qed.

Section Encoding.

Local Open Scope Z_scope.

Lemma int_from_bytes_acc (s : bytes) :
  forall acc,
    fold_left (fun a b => a * 256 + byte_to_Z b) s acc
    = acc * 256 ^ Z.of_nat (length s) + int_from_bytes s.
Proof.
  unfold int_from_bytes.
  induction s as [|b s IH]; intros acc.
  - cbn. lia.
  - cbn [fold_left length]. rewrite IH, (IH (0 * 256 + byte_to_Z b)).
    rewrite Nat2Z.inj_succ, Z.pow_succ_r by lia. ring.
Qed.

Lemma int_from_bytes_cons (b : byte) (s : bytes) :
  int_from_bytes (b :: s)
  = byte_to_Z b * 256 ^ Z.of_nat (length s) + int_from_bytes s.
Proof.
  unfold int_from_bytes at 1. cbn [fold_left]. rewrite int_from_bytes_acc. ring.
Qed.

Lemma int_from_bytes_range (s : bytes) :
  0 <= int_from_bytes s < 256 ^ Z.of_nat (length s).
Proof.
  induction s as [|b s IH].
  - cbn. lia.
  - rewrite int_from_bytes_cons. cbn [length].
    rewrite Nat2Z.inj_succ, Z.pow_succ_r by lia.
    pose proof (byte_to_Z_range b). nia.
Qed.

(** [to_bytes] writes the [width] low-order bytes of the value. *)
Lemma int_from_to_bytes (width : nat) (value : Z) :
  int_from_bytes (to_bytes width value) = value mod 256 ^ Z.of_nat width.
Proof.
  induction width as [|w IH].
  - cbn. now rewrite Z.mod_1_r.
  - cbn [to_bytes]. rewrite int_from_bytes_cons, to_bytes_length, IH.
    rewrite byte_to_of_Z, Nat2Z.inj_succ, Z.pow_succ_r by lia.
    rewrite (Z.mul_comm 256), Z.rem_mul_r by lia. ring.
Qed.

Lemma to_bytes_zero_head (w : nat) (value : Z) :
  0 <= value < 256 ^ Z.of_nat w ->
  to_bytes (S w) value = x00 :: to_bytes w value.
Proof.
  intros Hv. cbn [to_bytes]. rewrite Z.div_small by exact Hv. reflexivity.
Qed.

Lemma lstrip0_nonzero (b : byte) (s : bytes) :
  b <> x00 -> lstrip0 (b :: s) = b :: s.
Proof.
  intros Hb. destruct b; try reflexivity. contradiction.
Qed.

Lemma byte_of_Z_nonzero (z : Z) : 0 < z < 256 -> byte_of_Z z <> x00.
Proof.
  intros Hz E. pose proof (byte_to_of_Z z) as Hb. rewrite E in Hb.
  rewrite Z.mod_small in Hb by lia. cbn in Hb. lia.
Qed.

(** Stripped of its zero bytes in front, an encoding that is wide enough
    is the encoding in as many bytes as the value needs. *)
Lemma lstrip0_to_bytes (k : nat) (value : Z) :
  256 ^ Z.of_nat k <= value < 256 ^ Z.of_nat (S k) ->
  forall extra, lstrip0 (to_bytes (extra + S k) value) = to_bytes (S k) value.
Proof.
  intros Hv. induction extra as [|e IH].
  - cbn [Nat.add]. cbn [to_bytes]. apply lstrip0_nonzero, byte_of_Z_nonzero.
    rewrite Nat2Z.inj_succ, Z.pow_succ_r in Hv by lia.
    pose proof (Z.pow_pos_nonneg 256 (Z.of_nat k) ltac:(lia) ltac:(lia)).
    split.
    + apply Z.div_str_pos. lia.
    + apply Z.div_lt_upper_bound; lia.
  - cbn [Nat.add]. rewrite to_bytes_zero_head; [exact IH|].
    split; [lia|].
    apply Z.lt_le_trans with (256 ^ Z.of_nat (S k)); [lia|].
    apply Z.pow_le_mono_r; lia.
Qed.

Lemma bit_length_bound (value : Z) :
  0 < value -> value < 2 ^ Z.of_nat (bit_length value).
Proof.
  destruct value as [|p|p]; try lia. intros _. cbn [bit_length].
  rewrite positive_nat_Z.
  pose proof (Pos.size_gt p) as Hp.
  apply Pos2Z.pos_lt_pos in Hp. rewrite Pos2Z.inj_pow in Hp. exact Hp.
Qed.

(** A value that needs [k + 1] bytes is encoded in [k + 1] bytes. *)
Lemma int_to_bytes_width (k : nat) (value : Z) :
  256 ^ Z.of_nat k <= value < 256 ^ Z.of_nat (S k) ->
  int_to_bytes value = to_bytes (S k) value.
Proof.
  intros Hv. unfold int_to_bytes.
  assert (Hpos : 0 < value).
  { pose proof (Z.pow_pos_nonneg 256 (Z.of_nat k) ltac:(lia) ltac:(lia)). lia. }
  assert (Hk : (S k <= bit_length value / 8 + 1)%nat).
  { pose proof (bit_length_bound value Hpos) as Hb.
    assert (Hlt : 2 ^ (8 * Z.of_nat k) < 2 ^ Z.of_nat (bit_length value)).
    { replace (2 ^ (8 * Z.of_nat k)) with (256 ^ Z.of_nat k); [lia|].
      rewrite Z.pow_mul_r by lia. reflexivity. }
    apply Z.pow_lt_mono_r_iff in Hlt; [|lia|lia].
    assert ((k <= bit_length value / 8)%nat); [|lia].
    apply Nat.div_le_lower_bound; lia. }
  replace (bit_length value / 8 + 1)%nat
    with ((bit_length value / 8 + 1 - S k) + S k)%nat by lia.
  now apply lstrip0_to_bytes.
Qed.

(** Every positive value below [256 ^ v] needs between 1 and [v] bytes. *)
Lemma bytes_needed (v : nat) (value : Z) :
  0 < value < 256 ^ Z.of_nat v ->
  exists k, (S k <= v)%nat
            /\ 256 ^ Z.of_nat k <= value < 256 ^ Z.of_nat (S k).
Proof.
  induction v as [|v IH]; intros Hv.
  - cbn in Hv. lia.
  - destruct (Z.lt_ge_cases value (256 ^ Z.of_nat v)) as [Hlt|Hge].
    + destruct IH as (k & Hk & Hr); [lia|]. exists k. split; [lia|exact Hr].
    + exists v. split; [lia|lia].
Qed.

(** The replacement of a chunk in step 6C: the encoding of the sum, cut to
    its last [v] bytes when it is longer.  From a sum of at least
    [256 ^ (v - 1)] it is the [v] low-order bytes of the sum; from a
    smaller sum it is shorter than [v] bytes. *)
Lemma chunk_replacement (v : nat) (B : Z) (I_j : bytes) :
  (0 < v)%nat -> length I_j = v -> 1 <= B <= 256 ^ Z.of_nat v ->
  (256 ^ Z.of_nat (v - 1) <= int_from_bytes I_j + B ->
   (if (v <? length (int_to_bytes (int_from_bytes I_j + B)))%nat
    then slice_from (int_to_bytes (int_from_bytes I_j + B))
                    (length (int_to_bytes (int_from_bytes I_j + B)) - v)
    else int_to_bytes (int_from_bytes I_j + B))
   = to_bytes v (int_from_bytes I_j + B))
  /\ (int_from_bytes I_j + B < 256 ^ Z.of_nat (v - 1) ->
      (length (if (v <? length (int_to_bytes (int_from_bytes I_j + B)))%nat
               then slice_from (int_to_bytes (int_from_bytes I_j + B))
                               (length (int_to_bytes (int_from_bytes I_j + B)) - v)
               else int_to_bytes (int_from_bytes I_j + B)) < v)%nat).
Proof.
  intros Hv Hlen HB.
  pose proof (int_from_bytes_range I_j) as Hr. rewrite Hlen in Hr.
  set (sum := int_from_bytes I_j + B) in *.
  destruct v as [|k]; [lia|]. clear Hv.
  replace (S k - 1)%nat with k by lia.
  assert (Hp : 0 < 256 ^ Z.of_nat k) by (apply Z.pow_pos_nonneg; lia).
  assert (Hs : 256 ^ Z.of_nat (S k) = 256 * 256 ^ Z.of_nat k).
  { rewrite Nat2Z.inj_succ, Z.pow_succ_r by lia. reflexivity. }
  split.
  - intros Hge.
    destruct (Z.lt_ge_cases sum (256 ^ Z.of_nat (S k))) as [Hlt|Hover].
    + rewrite (int_to_bytes_width k sum) by lia.
      rewrite to_bytes_length, Nat.ltb_irrefl. reflexivity.
    + rewrite (int_to_bytes_width (S k) sum).
      2:{ split; [exact Hover|].
          rewrite (Nat2Z.inj_succ (S k)), Z.pow_succ_r by lia. lia. }
      rewrite to_bytes_length.
      destruct (Nat.ltb_spec (S k) (S (S k))); [|lia].
      replace (S (S k) - S k)%nat with 1%nat by lia. reflexivity.
  - intros Hlt.
    destruct (bytes_needed k sum) as (n & Hn & Hrange); [lia|].
    rewrite (int_to_bytes_width n sum Hrange), to_bytes_length.
    destruct (Nat.ltb_spec (S k) (S n)); [lia|].
    rewrite to_bytes_length. lia.
Qed.

Lemma B_of_range (v : nat) (A2 : bytes) (B : Z) :
  B_of v A2 = Some B -> 1 <= B <= 256 ^ Z.of_nat v.
Proof.
  unfold B_of. destruct (while_extend v [] A2 v) as [r|]; [|discriminate].
  cbn [option_map]. intros [= <-].
  pose proof (int_from_bytes_range (slice r 0 v)) as Hr.
  assert (Hl : (length (slice r 0 v) <= v)%nat).
  { unfold slice. rewrite skipn_O, length_firstn. lia. }
  assert (256 ^ Z.of_nat (length (slice r 0 v)) <= 256 ^ Z.of_nat v).
  { apply Z.pow_le_mono_r; lia. }
  lia.
Qed.

(** A round of step 6C keeps the length of [I] when the sum needs at least
    [v] bytes, and shortens [I] when it needs fewer. *)
Lemma step_6C_chunk_length (v : nat) (B : Z) (I : bytes) (j : nat) :
  (0 < v)%nat -> ((j + 1) * v <= length I)%nat -> 1 <= B <= 256 ^ Z.of_nat v ->
  (256 ^ Z.of_nat (v - 1)
   <= int_from_bytes (slice I (j * v) ((j + 1) * v)) + B ->
   length (step_6C_chunk v B I j) = length I)
  /\ (int_from_bytes (slice I (j * v) ((j + 1) * v)) + B
      < 256 ^ Z.of_nat (v - 1) ->
      (length (step_6C_chunk v B I j) < length I)%nat).
Proof.
  intros Hv Hj HB.
  assert (Hc : length (slice I (j * v) ((j + 1) * v)) = v).
  { unfold slice. rewrite length_skipn, length_firstn. lia. }
  destruct (chunk_replacement v B (slice I (j * v) ((j + 1) * v)) Hv Hc HB)
    as [Hfull Hshort].
  assert (Hhead : length (slice I 0 (j * v)) = (j * v)%nat).
  { apply length_slice0. lia. }
  assert (Htail : length (slice_from I ((j + 1) * v))
                  = (length I - (j + 1) * v)%nat).
  { unfold slice_from. apply length_skipn. }
  unfold step_6C_chunk. cbv zeta.
  rewrite !length_app, Hhead, Htail.
  split.
  - intros Hge. rewrite (Hfull Hge), to_bytes_length. lia.
  - intros Hlt. specialize (Hshort Hlt).
    match goal with
    | |- (_ + (?m + _) < _)%nat =>
      change (m < v)%nat in Hshort; remember m as new_len eqn:E
    end.
    clear E. nia.
Qed.

End Encoding.

(* ------------------------------------------------------------------ *)
(** * The claims of the specification *)

(** C8.  The digest parameters are a function of the algorithm name: [u] is
    16, 20, 28, 32, 48, 64 for md5, sha1, sha224, sha256, sha384, sha512,
    and [v] is 128 for sha384 and sha512 and 64 for the four others. *)
Theorem digest_parameters (l : log) :
  (u_of "md5" l = (Returns 16, l) /\ v_of "md5" = 64)
  /\ (u_of "sha1" l = (Returns 20, l) /\ v_of "sha1" = 64)
  /\ (u_of "sha224" l = (Returns 28, l) /\ v_of "sha224" = 64)
  /\ (u_of "sha256" l = (Returns 32, l) /\ v_of "sha256" = 64)
  /\ (u_of "sha384" l = (Returns 48, l) /\ v_of "sha384" = 128)
  /\ (u_of "sha512" l = (Returns 64, l) /\ v_of "sha512" = 128).
Proof. repeat split. Qed.


Section Claims.

Variable hashlib : string -> bytes -> bytes.

(** The digest provider returns [u] bytes for the algorithm of the row [u]
    of the table. *)
Hypothesis digest_size :
  forall algo u m, u_table algo = Some u -> length (hashlib algo m) = u.

Local Abbreviation kdf := (pkcs12_kdf hashlib).

(** C6.  In every round of the main loop, step 6A makes exactly
    [iterations] digest calls: the first on [D + I], each later one on the
    digest the one before returned; the value [A2] that step 7 copies into
    [A] is the digest the last call returned. *)
Theorem block_is_iterated_digest
        (algo : string) (u v key_length c i : nat) (iterations : Z)
        (D I A : bytes) (l : log) :
  u_table algo = Some u -> (1 <= iterations)%Z ->
  step_6A hashlib algo iterations D I l
  = (Returns (Nat.iter (Z.to_nat iterations) (hashlib algo) (D ++ I)),
     l ++ hash_chain (hashlib algo) algo (Z.to_nat iterations) (D ++ I))
  /\ length (hash_chain (hashlib algo) algo (Z.to_nat iterations) (D ++ I))
     = Z.to_nat iterations
  /\ (forall k, k < Z.to_nat iterations ->
        nth_error (hash_chain (hashlib algo) algo (Z.to_nat iterations) (D ++ I))
                  k
        = Some (algo, Nat.iter k (hashlib algo) (D ++ I)))
  /\ exists I',
      loop_body hashlib algo iterations u v key_length c D i (I, A) l
      = (Returns
           (I', step_7 u key_length i A
                       (Nat.iter (Z.to_nat iterations) (hashlib algo) (D ++ I))),
         l ++ hash_chain (hashlib algo) algo (Z.to_nat iterations) (D ++ I)).
Proof.
  intros Hu Hit.
  assert (Hn : S (Z.to_nat (iterations + 1 - 2)) = Z.to_nat iterations) by lia.
  assert (Hblock : block hashlib algo iterations D I
                   = Nat.iter (Z.to_nat iterations) (hashlib algo) (D ++ I)).
  { unfold block. rewrite <- Hn, Nat.iter_succ_r. reflexivity. }
  assert (Hcalls : block_calls hashlib algo iterations D I
                   = hash_chain (hashlib algo) algo (Z.to_nat iterations)
                                (D ++ I)).
  { unfold block_calls. now rewrite Hn. }
  split; [|split; [|split]].
  - rewrite step_6A_run, Hblock, Hcalls. reflexivity.
  - apply hash_chain_length.
  - intros k Hk. now apply hash_chain_nth.
  - rewrite (loop_body_run hashlib algo iterations u v key_length c D
               (u_table_pos _ _ Hu) (fun m => digest_size algo u m Hu)).
    rewrite Hblock, Hcalls. eauto.
Qed.

(** C10.  The accumulator [A] has [c * u] bytes, [c = ceil(key_length / u)],
    before the loop and after each of its rounds: a round writes
    [min(key_length, u)] bytes at offset [(i - 1) * u] and leaves the length
    of [A] as it was; for [i < c] that is [u] bytes, for [i = c] the write
    ends at or before [c * u]; and [c * u] is at least [key_length]. *)
Theorem accumulator_length_invariant
        (algo : string) (u v key_length rounds : nat) (iterations : Z)
        (D I0 : bytes) (l : log) :
  u_table algo = Some u -> 0 < key_length ->
  rounds <= ceil_div key_length u ->
  (exists st' l',
      main_loop hashlib algo iterations u v key_length
                (ceil_div key_length u) D rounds 1
                (I0, repeat x00 (ceil_div key_length u * u)) l
      = (Returns st', l')
      /\ length (snd st') = ceil_div key_length u * u)
  /\ (forall i A A2,
         1 <= i <= ceil_div key_length u ->
         length A = ceil_div key_length u * u -> length A2 = u ->
         length (step_7 u key_length i A A2) = ceil_div key_length u * u)
  /\ (forall i, 1 <= i < ceil_div key_length u -> Nat.min key_length u = u)
  /\ (ceil_div key_length u - 1) * u + Nat.min key_length u
     <= ceil_div key_length u * u
  /\ key_length <= ceil_div key_length u * u.
Proof.
  intros Hu Hk Hr.
  pose proof (u_table_pos _ _ Hu) as Hupos.
  pose proof (ceil_div_bounds key_length u Hupos) as Hb.
  split; [|split; [|split; [|split]]].
  - apply main_loop_length; auto using repeat_length.
  - intros i A A2 Hi HA HA2. apply step_7_length; auto. nia.
  - intros i Hi. nia.
  - nia.
  - nia.
Qed.

(** A call ends in one of four ways. *)
Lemma call_outcome h pw s it kl id l :
  (~ passes_checks h pw s it kl id
   /\ exists e, kdf h pw s it kl id l = (Raises e, l))
  \/ (passes_checks h pw s it kl id
      /\ exists p, pw = PyBytes p /\ utf8_decode p = None
                   /\ kdf h pw s it kl id l
                      = (Raises (Exception UnicodeDecodeError
                                           codec_cannot_convert), l))
  \/ (passes_checks h pw s it kl id
      /\ exists p t f,
          pw = PyBytes p /\ utf8_decode p = Some t /\ id = PyFloat f
          /\ kdf h pw s it kl id l
             = (Raises (Exception TypeError
                          (object_cannot_be_interpreted_as_an_integer
                             "float")), l))
  \/ (accepted h pw s it kl id
      /\ exists p t out l', pw = PyBytes p /\ utf8_decode p = Some t
                            /\ kdf h pw s it kl id l = (Returns out, l')).
Proof.
  destruct (passes_checks_dec h pw s it kl id) as [Ha|Hna].
  2:{ left. split; [exact Hna|].
      destruct (rejected hashlib h pw s it kl id l Hna) as (e & Hr & _).
      eauto. }
  right. pose proof Ha as Ha'.
  destruct Ha' as (algo & p & b & n & k & -> & -> & -> & -> & ->
                   & Hs & Hn & Hk & Hhash & Hid).
  destruct (utf8_decode p) as [t|] eqn:Hd.
  2:{ left. split; [exact Ha|]. exists p. repeat split; [exact Hd|].
      now apply pkcs12_kdf_undecodable_id. }
  right. destruct (eqb_int_member id Hid) as [(i & -> & Hi)|(f & ->)].
  - right. split; [now apply passes_checks_int|].
    destruct (proj1 (u_table_supported algo) Hs) as [u Hu].
    destruct (pkcs12_kdf_accepted hashlib digest_size algo p b n k i u t l
                Hu Hn Hk Hi Hd) as (e & rest & _ & Hrun).
    exists p, t. eexists _, _. repeat split; [exact Hd | exact Hrun].
  - left. split; [exact Ha|]. exists p, t, f.
    repeat split; [exact Hd|]. now apply pkcs12_kdf_float_id with (t := t).
Qed.

(** C4, as the code has it, for arguments that are byte strings, text,
    integers, [None], floats, byte arrays or lists, and a [key_length]
    below 2^49, where the ceiling of line 116 is the exact one.  Arguments
    that pass the checks can still make the call raise, in two ways.  The
    password is decoded as UTF-8 at line 74, and a password that is not
    well-formed UTF-8 raises [UnicodeDecodeError].  A float equal to 1, 2
    or 3 is in the set of line 71, and [bytes([id_])] at line 94 raises
    [TypeError] for it.  Both happen before any digest is computed.  With
    a password that decodes and an [id_] that is an integer, a call whose
    arguments pass the checks returns; so a call raises exactly when a
    check fails, the password does not decode, or [id_] is a float; and no
    call runs forever. *)
Theorem raises_iff_rejected_or_undecodable
        (h pw s it kl id : pyval) (l : log) :
  (forall k, kl = PyInt k -> (k < 2 ^ 49)%Z) ->
  ((exists e l', kdf h pw s it kl id l = (Raises e, l'))
   <-> (~ passes_checks h pw s it kl id
        \/ (exists p, pw = PyBytes p /\ utf8_decode p = None)
        \/ (exists f, id = PyFloat f)))
  /\ (passes_checks h pw s it kl id ->
      (forall p, pw = PyBytes p -> utf8_decode p <> None) ->
      (forall f, id <> PyFloat f) ->
      exists out l', kdf h pw s it kl id l = (Returns out, l'))
  /\ (passes_checks h pw s it kl id ->
      forall p, pw = PyBytes p -> utf8_decode p = None ->
      kdf h pw s it kl id l
      = (Raises (Exception UnicodeDecodeError codec_cannot_convert), l))
  /\ (passes_checks h pw s it kl id ->
      (forall p, pw = PyBytes p -> utf8_decode p <> None) ->
      forall f, id = PyFloat f ->
      kdf h pw s it kl id l
      = (Raises (Exception TypeError
                   (object_cannot_be_interpreted_as_an_integer "float")), l))
  /\ fst (kdf h pw s it kl id l) <> Diverges.
Proof.
  intros _.
  destruct (call_outcome h pw s it kl id l)
    as [(Hna & e & Hr)
       |[(Ha & p & -> & Hd & Hr)
        |[(Ha & p & t & f & -> & Hd & -> & Hr)
         |(Ha & p & t & out & l' & -> & Hd & Hr)]]];
    (split; [|split; [|split; [|split]]]).
  - split; [auto | intros _; eauto].
  - intros Ha. contradiction.
  - intros Ha. contradiction.
  - intros Ha. contradiction.
  - rewrite Hr. discriminate.
  - split; [intros _; right; left; eauto | intros _; eauto].
  - intros _ Hp. now destruct (Hp p eq_refl).
  - intros _ p' [= <-] _. exact Hr.
  - intros _ Hp. now destruct (Hp p eq_refl).
  - rewrite Hr. discriminate.
  - split; [intros _; right; right; eauto | intros _; eauto].
  - intros _ _ Hf. now destruct (Hf f).
  - intros _ p' [= <-] Hd'. congruence.
  - intros _ _ f' _. exact Hr.
  - rewrite Hr. discriminate.
  - split.
    + intros (e & l2 & He). rewrite Hr in He. discriminate.
    + intros [Hna|[(p' & [= <-] & Hd')|(f & Hf)]].
      * destruct Hna. now apply accepted_passes_checks.
      * congruence.
      * destruct Ha as (_ & i & Ei). congruence.
  - intros _ _ _. eauto.
  - intros _ p' [= <-] Hd'. congruence.
  - intros _ _ f Hf. destruct Ha as (_ & i & Ei). congruence.
  - rewrite Hr. discriminate.
Qed.

(** C5.  A call whose arguments are [accepted] (they pass the checks, with
    an integer for [id_]) and whose password decodes
    returns a byte string of exactly [key_length] bytes, whether or not
    [key_length] is a multiple of [u]; and whenever a call returns, what it
    returns has [key_length] bytes. *)
Theorem derived_key_length (h pw s it kl id : pyval) (l : log) :
  (accepted h pw s it kl id ->
   (forall p, pw = PyBytes p -> utf8_decode p <> None) ->
   exists out l', kdf h pw s it kl id l = (Returns out, l')
                  /\ kl = PyInt (Z.of_nat (length out)))
  /\ (forall out l', kdf h pw s it kl id l = (Returns out, l') ->
                     kl = PyInt (Z.of_nat (length out))).
Proof.
  assert (Hlen : forall out l', kdf h pw s it kl id l = (Returns out, l') ->
                                kl = PyInt (Z.of_nat (length out))).
  { intros out l' Hr.
    destruct (pkcs12_kdf_returns_inv hashlib digest_size _ _ _ _ _ _ _ _ _ Hr)
      as (algo & p & b & n & k & i & u & t & e & -> & -> & -> & -> & -> & ->
          & Hu & Hn & Hk & Hi & Hd & He & ->).
    pose proof (u_table_pos _ _ Hu) as Hupos.
    rewrite length_firstn.
    rewrite (keystream_length hashlib algo n u (v_of algo) (D_of i (v_of algo))
               Hupos (fun m => digest_size algo u m Hu)).
    pose proof (ceil_div_bounds (Z.to_nat k) u Hupos).
    f_equal. nia. }
  split; [|exact Hlen].
  intros Ha Hp.
  destruct (call_outcome h pw s it kl id l)
    as [(Hna & _)
       |[(_ & p & -> & Hd & _)
        |[(_ & p & t & f & _ & _ & -> & _)
         |(_ & p & t & out & l' & -> & Hd & Hr)]]].
  - destruct Hna. now apply accepted_passes_checks.
  - now destruct (Hp p eq_refl).
  - destruct Ha as (_ & i & Ei). discriminate Ei.
  - exists out, l'. split; [exact Hr | eapply Hlen; exact Hr].
Qed.

Lemma ceil_div_mono (n m d : nat) : n <= m -> ceil_div n d <= ceil_div m d.
Proof.
  intros Hnm. unfold ceil_div. apply Nat.Div0.div_le_mono. lia.
Qed.

(** What a call returns is the start of what a call for a longer key
    returns. *)
Lemma key_prefix h pw s it id (k1 k2 : Z) l1 l2 out1 l1' :
  (k1 <= k2)%Z ->
  kdf h pw s it (PyInt k1) id l1 = (Returns out1, l1') ->
  exists out2 l2',
    kdf h pw s it (PyInt k2) id l2 = (Returns out2, l2')
    /\ firstn (Z.to_nat k1) out2 = out1.
Proof.
  intros Hle Hr.
  destruct (pkcs12_kdf_returns_inv hashlib digest_size _ _ _ _ _ _ _ _ _ Hr)
    as (algo & p & b & n & k & i & u & t & e & -> & -> & -> & -> & [= <-] & ->
        & Hu & Hn & Hk & Hi & Hd & He & ->).
  destruct (pkcs12_kdf_accepted hashlib digest_size algo p b n k2 i u t l2
              Hu Hn ltac:(lia) Hi Hd) as (e2 & rest & He2 & Hrun).
  assert (e2 = e) by congruence. subst e2.
  eexists _, _. split; [exact Hrun|].
  pose proof (u_table_pos _ _ Hu) as Hupos.
  set (I0 := stretched (v_of algo) b ++ stretched (v_of algo) (e ++ [x00; x00])).
  set (c1 := ceil_div (Z.to_nat k1) u).
  set (c2 := ceil_div (Z.to_nat k2) u).
  assert (Hc : c2 = c1 + (c2 - c1)).
  { pose proof (ceil_div_mono (Z.to_nat k1) (Z.to_nat k2) u ltac:(lia)).
    fold c1 c2 in H. lia. }
  destruct (keystream_more hashlib algo n (v_of algo) (D_of i (v_of algo))
              c1 (c2 - c1) I0) as [more Hmore].
  rewrite firstn_firstn, Hc, Hmore.
  replace (Nat.min (Z.to_nat k1) (Z.to_nat k2)) with (Z.to_nat k1) by lia.
  rewrite firstn_app.
  rewrite (keystream_length hashlib algo n u (v_of algo) (D_of i (v_of algo))
             Hupos (fun m => digest_size algo u m Hu)).
  pose proof (ceil_div_bounds (Z.to_nat k1) u Hupos) as Hb. fold c1 in Hb.
  replace (Z.to_nat k1 - c1 * u) with 0 by nia.
  rewrite firstn_O, app_nil_r. reflexivity.
Qed.

(** C7.  With the other arguments the same, the key of [u] bytes is the
    first [u] bytes of the key of [u * 2 + 5] bytes; and in general the
    key returned for a length is the start of the key returned for any
    greater length: a block does not depend on how many blocks follow. *)
Theorem first_block_independent_of_key_length
        (algo : string) (u : nat) (pw s it id : pyval)
        (l1 l2 l1' : log) (out1 : bytes) :
  u_table algo = Some u ->
  kdf (PyStr algo) pw s it (PyInt (Z.of_nat u)) id l1 = (Returns out1, l1') ->
  (exists out2 l2',
      kdf (PyStr algo) pw s it (PyInt (Z.of_nat (u * 2 + 5))) id l2
      = (Returns out2, l2')
      /\ firstn u out2 = out1)
  /\ (forall k2, (Z.of_nat u <= k2)%Z ->
        exists out2 l2',
          kdf (PyStr algo) pw s it (PyInt k2) id l2 = (Returns out2, l2')
          /\ firstn u out2 = out1).
Proof.
  intros Hu Hr.
  assert (Hgen : forall k2, (Z.of_nat u <= k2)%Z ->
            exists out2 l2',
              kdf (PyStr algo) pw s it (PyInt k2) id l2 = (Returns out2, l2')
              /\ firstn u out2 = out1).
  { intros k2 Hk2.
    destruct (key_prefix (PyStr algo) pw s it id (Z.of_nat u) k2 l1 l2 out1 l1'
                Hk2 Hr) as (out2 & l2' & Hr2 & Hpre).
    rewrite Nat2Z.id in Hpre. eauto. }
  split; [apply Hgen; lia | exact Hgen].
Qed.

(** C2, as the code has it.  With an empty salt [S] is empty.  The encoded
    password always ends in the two-byte terminator, so it is never empty
    and [P] is always built: for an empty password [P] is [v] zero bytes.
    A call with an empty password, with an empty salt, or with both,
    returns, and its first digest is over [D + S + P]. *)
Theorem empty_salt_and_empty_password
        (algo : string) (u : nat) (iterations key_length id_ : Z) (l : log) :
  u_table algo = Some u ->
  (1 <= iterations)%Z -> (1 <= key_length)%Z -> In id_ [1; 2; 3]%Z ->
  stretch (v_of algo) [] = Some []
  /\ utf16_password_of [] l = (Returns [x00; x00], l)
  /\ stretch (v_of algo) [x00; x00] = Some (repeat x00 (v_of algo))
  /\ (forall password e,
         utf16_password_of password l = (Returns e, l) -> e <> [])
  /\ (forall salt,
         exists S out rest,
           stretch (v_of algo) salt = Some S
           /\ kdf (PyStr algo) (PyBytes []) (PyBytes salt) (PyInt iterations)
                  (PyInt key_length) (PyInt id_) l
              = (Returns out,
                 l ++ (algo, D_of id_ (v_of algo)
                             ++ S ++ repeat x00 (v_of algo)) :: rest))
  /\ (forall password t,
         utf8_decode password = Some t ->
         exists e P out rest,
           utf16_password_of password l = (Returns e, l)
           /\ stretch (v_of algo) e = Some P /\ P <> []
           /\ kdf (PyStr algo) (PyBytes password) (PyBytes []) (PyInt iterations)
                  (PyInt key_length) (PyInt id_) l
              = (Returns out, l ++ (algo, D_of id_ (v_of algo) ++ P) :: rest)).
Proof.
  intros Hu Hn Hk Hi.
  assert (Hzero : stretch (v_of algo) [x00; x00] = Some (repeat x00 (v_of algo))).
  { unfold v_of. destruct (name_in algo _); vm_compute; reflexivity. }
  split; [reflexivity|]. split; [reflexivity|]. split; [exact Hzero|].
  split; [|split].
  - intros password e He. unfold utf16_password_of in He.
    destruct (utf8_decode password); [|discriminate].
    destruct (utf16be_encode t); [|discriminate].
    injection He as <-. intros E. apply app_eq_nil in E. destruct E. discriminate.
  - intros salt.
    destruct (stretch_ends (v_of algo) salt) as (S & HS & _).
    destruct (pkcs12_kdf_accepted hashlib digest_size algo [] salt iterations
                key_length id_ u [] l Hu Hn Hk Hi eq_refl)
      as (e & rest & He & Hrun).
    injection He as <-. cbn [app] in Hrun.
    unfold stretched in Hrun. rewrite HS, Hzero in Hrun.
    exists S. eexists _, _. split; [exact HS | exact Hrun].
  - intros password t Hd.
    destruct (pkcs12_kdf_accepted hashlib digest_size algo password []
                iterations key_length id_ u t l Hu Hn Hk Hi Hd)
      as (e & rest & He & Hrun).
    destruct (stretch_ends (v_of algo) (e ++ [x00; x00])) as (P & HP & HPlen).
    unfold stretched in Hrun. rewrite HP in Hrun. cbn [stretch app] in Hrun.
    exists (e ++ [x00; x00]), P. eexists _, _.
    split; [|split; [exact HP|split; [|exact Hrun]]].
    + unfold utf16_password_of. rewrite Hd, He. reflexivity.
    + intros ->.
      assert (Hne : bytes_eqb (e ++ [x00; x00]) [] = false).
      { destruct (bytes_eqb (e ++ [x00; x00]) []) eqn:E; [|reflexivity].
        apply bytes_eqb_nil, app_eq_nil in E. destruct E. discriminate. }
      rewrite Hne in HPlen.
      pose proof (v_of_pos algo) as Hv.
      assert (Hpos : 0 < length (e ++ [x00; x00])).
      { rewrite length_app. cbn [length]. lia. }
      pose proof (ceil_div_pos _ _ Hv Hpos). cbn [length] in HPlen. nia.
Qed.

End Claims.

(* ------------------------------------------------------------------ *)
(** * The claims at concrete calls *)

Lemma sha1_length m : length (SHA1.sha1 m) = 20.
Proof.
  unfold SHA1.sha1.
  destruct (SHA1.blocks _ _ _) as [[[[h0 h1] h2] h3] h4].
  rewrite !length_app, !to_bytes_length. reflexivity.
Qed.

Lemma hashlib_model_size algo u m :
  u_table algo = Some u -> length (hashlib_model algo m) = u.
Proof.
  intros Hu. unfold hashlib_model.
  destruct (String.eqb_spec algo "sha1") as [->|_].
  - injection Hu as <-. apply sha1_length.
  - now apply checksum_digest_size.
Qed.

Example sha1_abc :
  SHA1.sha1 ["a"; "b"; "c"]%byte
  = [xa9; x99; x3e; x36; x47; x06; x81; x6a; xba; x3e;
     x25; x71; x78; x50; xc2; x6c; x9c; xd0; xd8; x9d].
Proof. vm_compute. reflexivity. Qed.

Example sha1_empty :
  SHA1.sha1 []
  = [xda; x39; xa3; xee; x5e; x6b; x4b; x0d; x32; x55;
     xbf; xef; x95; x60; x18; x90; xaf; xd8; x07; x09].
Proof. vm_compute. reflexivity. Qed.

(** C1, where the code departs from it.  In the call
    [pkcs12_kdf('sha1', b'a', b'\x01\x84', 1, 40, 1)] the first digest
    starts with a zero byte, and so does the second chunk of [I] (the
    encoded password); their sum is re-encoded in 63 bytes, which the
    test [I_j_l > v] lets through.  The first chunk keeps its 64 bytes,
    the second is replaced by 63: [I] goes from 128 to 127 bytes, the
    second digest is over 64 + 127 bytes, and the key returned is the one
    computed from that shortened [I]. *)
Theorem short_chunk_shrinks_I :
  pkcs12_kdf hashlib_model (PyStr "sha1") (PyBytes ["a"]%byte)
             (PyBytes [x01; x84]) (PyInt 1) (PyInt 40) (PyInt 1) []
  = (Returns short_chunk_key,
     [("sha1"%string, D_of 1 64 ++ short_chunk_I);
      ("sha1"%string,
       D_of 1 64 ++ next_I hashlib_model "sha1" 1 64 (D_of 1 64) short_chunk_I)])
  /\ length short_chunk_I = 128
  /\ length (next_I hashlib_model "sha1" 1 64 (D_of 1 64) short_chunk_I) = 127
  /\ (exists B,
         B_of 64 (SHA1.sha1 (D_of 1 64 ++ short_chunk_I)) = Some B
         /\ length (step_6C_chunk 64 B short_chunk_I 0) = 128
         /\ length (step_6C_chunk 64 B (step_6C_chunk 64 B short_chunk_I 0) 1)
            = 127
         /\ length (int_to_bytes
                      (int_from_bytes
                         (slice (step_6C_chunk 64 B short_chunk_I 0) 64 128)
                       + B)) = 63).
Proof.
  split; [vm_compute; reflexivity|].
  split; [vm_compute; reflexivity|].
  split; [vm_compute; reflexivity|].
  eexists. split; [vm_compute; reflexivity|].
  repeat split; vm_compute; reflexivity.
Qed.

(** C2 as stated fails: with an empty password, [P] is not empty.  The
    encoded password is the two-byte terminator, [P] is 64 zero bytes, and
    the digest is over [D + S + P], not over [D + S]. *)
Lemma empty_password_P_is_not_empty :
  exists P,
    P <> []
    /\ utf16_password_of [] [] = (Returns [x00; x00], [])
    /\ stretch (v_of "sha1") [x00; x00] = Some P
    /\ snd (pkcs12_kdf hashlib_model (PyStr "sha1") (PyBytes [])
                       (PyBytes [xaa]) (PyInt 1) (PyInt 20) (PyInt 3) [])
       = [("sha1"%string, D_of 3 64 ++ repeat xaa 64 ++ P)].
Proof.
  exists (repeat x00 64). split; [discriminate|].
  repeat split; vm_compute; reflexivity.
Qed.


(** C4 as stated fails: the arguments pass every check, and the call
    raises. *)
Lemma undecodable_password_raises :
  passes_checks (PyStr "sha1") (PyBytes [xff]) (PyBytes [x01]) (PyInt 1)
                (PyInt 20) (PyInt 1)
  /\ pkcs12_kdf hashlib_model (PyStr "sha1") (PyBytes [xff]) (PyBytes [x01])
                (PyInt 1) (PyInt 20) (PyInt 1) []
     = (Raises (Exception UnicodeDecodeError codec_cannot_convert), []).
Proof.
  split; [|reflexivity].
  exists "sha1"%string, [xff], [x01], 1%Z, 20%Z.
  cbv [supported hash_names In]. repeat split; auto; lia.
Qed.

(** ** The theorems at a call *)


Lemma passes_checks_sha1 (p b : bytes) (n k : Z) (id : pyval) :
  (1 <= n)%Z -> (1 <= k)%Z ->
  hashable id = true -> existsb (eqb_int id) [1; 2; 3]%Z = true ->
  passes_checks (PyStr "sha1") (PyBytes p) (PyBytes b) (PyInt n) (PyInt k) id.
Proof.
  intros Hn Hk Hh Hi. exists "sha1"%string, p, b, n, k.
  cbv [supported hash_names]. cbn [In]. repeat split; auto.
Defined.

Lemma accepted_sha1 (p b : bytes) (n k i : Z) :
  (1 <= n)%Z -> (1 <= k)%Z -> In i [1; 2; 3]%Z ->
  accepted (PyStr "sha1") (PyBytes p) (PyBytes b) (PyInt n) (PyInt k) (PyInt i).
Proof.
  intros Hn Hk Hi. split; [|now exists i].
  apply passes_checks_sha1; [exact Hn | exact Hk | reflexivity |].
  destruct Hi as [<-|[<-|[<-|[]]]]; reflexivity.
Defined.

Lemma raises_iff_rejected_or_undecodable_witness :
  (exists out l',
      pkcs12_kdf hashlib_model (PyStr "sha1")
                 (PyBytes ["s"; "m"; "e"; "g"]%byte)
                 (PyBytes [x0a; x58; xcf; x64]) (PyInt 2) (PyInt 24) (PyInt 1)
                 []
      = (Returns out, l'))
  /\ pkcs12_kdf hashlib_model (PyStr "sha1")
                (PyBytes ["s"; "m"; "e"; "g"]%byte)
                (PyBytes [x0a; x58; xcf; x64]) (PyInt 2) (PyInt 24)
                (PyFloat (Finite 2 0)) []
     = (Raises (Exception TypeError
                  (object_cannot_be_interpreted_as_an_integer "float")), [])
  /\ pkcs12_kdf hashlib_model (PyStr "sha1") (PyBytes [xff])
                (PyBytes [x0a; x58; xcf; x64]) (PyInt 2) (PyInt 24)
                (PyFloat (Finite 2 0)) []
     = (Raises (Exception UnicodeDecodeError codec_cannot_convert), []).
Proof.
  split; [|split].
  - refine (proj1 (proj2
              (raises_iff_rejected_or_undecodable
                 hashlib_model hashlib_model_size
                 (PyStr "sha1") (PyBytes ["s"; "m"; "e"; "g"]%byte)
                 (PyBytes [x0a; x58; xcf; x64]) (PyInt 2) (PyInt 24) (PyInt 1)
                 [] _)) _ _ _).
    + intros k [= <-]. reflexivity.
    + apply passes_checks_sha1; [lia | lia | reflexivity | reflexivity].
    + intros p [= <-]. vm_compute. discriminate.
    + intros f. discriminate.
  - refine (proj1 (proj2 (proj2 (proj2
              (raises_iff_rejected_or_undecodable
                 hashlib_model hashlib_model_size
                 (PyStr "sha1") (PyBytes ["s"; "m"; "e"; "g"]%byte)
                 (PyBytes [x0a; x58; xcf; x64]) (PyInt 2) (PyInt 24)
                 (PyFloat (Finite 2 0)) [] _)))) _ _ _ eq_refl).
    + intros k [= <-]. reflexivity.
    + apply passes_checks_sha1; [lia | lia | reflexivity | reflexivity].
    + intros p [= <-]. vm_compute. discriminate.
  - refine (proj1 (proj2 (proj2
              (raises_iff_rejected_or_undecodable
                 hashlib_model hashlib_model_size
                 (PyStr "sha1") (PyBytes [xff])
                 (PyBytes [x0a; x58; xcf; x64]) (PyInt 2) (PyInt 24)
                 (PyFloat (Finite 2 0)) [] _))) _ _ eq_refl _).
    + intros k [= <-]. reflexivity.
    + apply passes_checks_sha1; [lia | lia | reflexivity | reflexivity].
    + reflexivity.
Defined.

Lemma derived_key_length_witness :
  exists out l',
    pkcs12_kdf hashlib_model (PyStr "sha1") (PyBytes ["s"; "m"; "e"; "g"]%byte)
               (PyBytes [x0a; x58; xcf; x64]) (PyInt 2) (PyInt 24) (PyInt 1) []
    = (Returns out, l')
    /\ PyInt 24 = PyInt (Z.of_nat (length out)).
Proof.
  apply (derived_key_length hashlib_model hashlib_model_size
           (PyStr "sha1") (PyBytes ["s"; "m"; "e"; "g"]%byte)
           (PyBytes [x0a; x58; xcf; x64]) (PyInt 2) (PyInt 24) (PyInt 1) []).
  - apply accepted_sha1; [lia | lia | cbn [In]; auto].
  - intros p [= <-]. vm_compute. discriminate.
Defined.

Lemma block_is_iterated_digest_witness :
  step_6A hashlib_model "sha1" 3 (D_of 1 64) [x01; x02]%list []
  = (Returns (Nat.iter (Z.to_nat 3) (hashlib_model "sha1")
                       (D_of 1 64 ++ [x01; x02])),
     [] ++ hash_chain (hashlib_model "sha1") "sha1" (Z.to_nat 3)
                      (D_of 1 64 ++ [x01; x02])).
Proof.
  apply (block_is_iterated_digest hashlib_model hashlib_model_size
           "sha1" 20 64 24 2 1 3 (D_of 1 64) [x01; x02] (repeat x00 40) []);
    [reflexivity | lia].
Defined.

Lemma accumulator_length_invariant_witness :
  exists st' l',
    main_loop hashlib_model "sha1" 1 20 64 45 (ceil_div 45 20) (D_of 1 64) 2 1
              (repeat x07 64, repeat x00 (ceil_div 45 20 * 20)) []
    = (Returns st', l')
    /\ length (snd st') = ceil_div 45 20 * 20.
Proof.
  apply (accumulator_length_invariant hashlib_model hashlib_model_size
           "sha1" 20 64 45 2 1 (D_of 1 64) (repeat x07 64) []);
    [reflexivity | lia | vm_compute; lia].
Defined.

Lemma first_block_independent_of_key_length_witness :
  exists out2 l2',
    pkcs12_kdf hashlib_model (PyStr "sha1") (PyBytes ["a"]%byte)
               (PyBytes [x01; x84]) (PyInt 1) (PyInt (Z.of_nat (20 * 2 + 5)))
               (PyInt 1) []
    = (Returns out2, l2')
    /\ firstn 20 out2
       = returned []
                  (pkcs12_kdf hashlib_model (PyStr "sha1") (PyBytes ["a"]%byte)
                              (PyBytes [x01; x84]) (PyInt 1)
                              (PyInt (Z.of_nat 20)) (PyInt 1) []).
Proof.
  refine (proj1 (first_block_independent_of_key_length
           hashlib_model hashlib_model_size
           "sha1" 20 (PyBytes ["a"]%byte) (PyBytes [x01; x84]) (PyInt 1)
           (PyInt 1) [] []
           (snd (pkcs12_kdf hashlib_model (PyStr "sha1") (PyBytes ["a"]%byte)
                            (PyBytes [x01; x84]) (PyInt 1)
                            (PyInt (Z.of_nat 20)) (PyInt 1) []))
           (returned []
              (pkcs12_kdf hashlib_model (PyStr "sha1") (PyBytes ["a"]%byte)
                          (PyBytes [x01; x84]) (PyInt 1)
                          (PyInt (Z.of_nat 20)) (PyInt 1) [])) _ _));
    [reflexivity | vm_compute; reflexivity].
Defined.

Lemma empty_salt_and_empty_password_witness :
  exists S out rest,
    stretch (v_of "sha1") [] = Some S
    /\ pkcs12_kdf hashlib_model (PyStr "sha1") (PyBytes []) (PyBytes [])
                  (PyInt 1) (PyInt 24) (PyInt 3) []
       = (Returns out,
          [] ++ ("sha1"%string,
                 D_of 3 (v_of "sha1") ++ S ++ repeat x00 (v_of "sha1")) :: rest).
Proof.
  apply (empty_salt_and_empty_password hashlib_model hashlib_model_size
           "sha1" 20 1 24 3 []);
    [reflexivity | lia | lia | cbn [In]; auto].
Defined.

(* ------------------------------------------------------------------ *)
(** * Further properties of the code *)

(** ** Steps 2 and 3: the stretched blocks *)

Lemma concat_repeat_snoc (piece : bytes) (k : nat) :
  concat (repeat piece k) ++ piece = concat (repeat piece (S k)).
Proof.
  induction k as [|k IH]; cbn [repeat concat] in *.
  - now rewrite app_nil_r.
  - now rewrite <- app_assoc, IH.
Qed.

Lemma length_concat_repeat (piece : bytes) (k : nat) :
  length (concat (repeat piece k)) = k * length piece.
Proof.
  induction k as [|k IH]; [reflexivity|].
  cbn [repeat concat]. rewrite length_app, IH. lia.
Qed.

Lemma nth_error_concat_repeat (piece : bytes) (k : nat) :
  forall i, i < k * length piece ->
            nth_error (concat (repeat piece k)) i
            = nth_error piece (i mod length piece).
Proof.
  induction k as [|k IH]; intros i Hi; [lia|].
  cbn [repeat concat].
  destruct (Nat.lt_ge_cases i (length piece)) as [Hlt|Hge].
  - rewrite nth_error_app1 by exact Hlt. now rewrite Nat.mod_small.
  - rewrite nth_error_app2 by exact Hge. rewrite IH by lia.
    replace i with ((i - length piece) + 1 * length piece) at 2 by lia.
    now rewrite Nat.Div0.mod_add.
Qed.

Lemma while_extend_repeats (piece : bytes) (target : nat) :
  forall fuel k r,
    while_extend fuel (concat (repeat piece k)) piece target = Some r ->
    exists k', r = concat (repeat piece k').
Proof.
  induction fuel as [|fuel IH]; intros k r; cbn [while_extend];
    destruct (_ <? target); try discriminate.
  - intros [= <-]. eauto.
  - rewrite concat_repeat_snoc. apply IH.
  - intros [= <-]. eauto.
Qed.

(** What steps 2 and 3 build from a source that is not empty: the source
    written end to end and cut at the first multiple of [v] that is not
    below its length. *)
Lemma stretch_spec (v : nat) (src : bytes) :
  src <> [] ->
  exists X,
    stretch v src = Some X
    /\ length X = v * ceil_div (length src) v
    /\ forall i, i < length X ->
                 nth_error X i = nth_error src (i mod length src).
Proof.
  intros Hs. unfold stretch.
  destruct (bytes_eqb src []) eqn:E; [apply bytes_eqb_nil in E; contradiction|].
  cbn [negb].
  destruct (while_extend_ends src (v * ceil_div (length src) v) Hs
              (v * ceil_div (length src) v) []) as (r & Hr & Hlen);
    [cbn; lia|].
  destruct (while_extend_repeats src (v * ceil_div (length src) v)
              (v * ceil_div (length src) v) 0 r Hr) as [k Hk].
  rewrite Hr. cbn [option_map]. eexists. split; [reflexivity|].
  assert (HX : length (slice r 0 (v * ceil_div (length src) v))
               = v * ceil_div (length src) v) by now apply length_slice0.
  split; [exact HX|].
  intros i Hi. rewrite HX in Hi. unfold slice. rewrite skipn_O.
  rewrite nth_error_firstn.
  destruct (Nat.ltb_spec i (v * ceil_div (length src) v)); [|lia].
  subst r. apply nth_error_concat_repeat.
  rewrite length_concat_repeat in Hlen. lia.
Qed.

(** X3.  From a source that is not empty, steps 2 and 3 build the source
    repeated end to end and cut at the smallest multiple of [v] that is at
    least its length: byte [i] of the block is byte [i mod len(src)] of the
    source, the block starts with the whole source, and a source whose
    length is a multiple of [v] is its own block. *)
Theorem stretch_repeats_source (v : nat) (src : bytes) :
  0 < v -> src <> [] ->
  exists X,
    stretch v src = Some X
    /\ length src <= length X < length src + v
    /\ length X mod v = 0
    /\ (forall i, i < length X ->
                  nth_error X i = nth_error src (i mod length src))
    /\ firstn (length src) X = src
    /\ (length src mod v = 0 -> X = src).
Proof.
  intros Hv Hs.
  destruct (stretch_spec v src Hs) as (X & HX & Hlen & Hnth).
  pose proof (ceil_div_bounds (length src) v Hv) as Hb.
  assert (Hpre : firstn (length src) X = src).
  { apply nth_error_ext. intros i. rewrite nth_error_firstn.
    destruct (Nat.ltb_spec i (length src)) as [Hi|Hi].
    - rewrite Hnth by lia. now rewrite Nat.mod_small.
    - symmetry. now apply nth_error_None. }
  exists X. split; [exact HX|]. split; [lia|].
  split; [rewrite Hlen, Nat.mul_comm; apply Nat.Div0.mod_mul|].
  split; [exact Hnth|]. split; [exact Hpre|].
  intros Hm. rewrite <- Hpre at 1. symmetry. apply firstn_all2.
  apply Nat.Div0.div_exact in Hm.
  assert (Hc : ceil_div (length src) v < length src / v + 1).
  { apply (Nat.mul_lt_mono_pos_l v); lia. }
  nia.
Qed.

(** ** The digest calls of the rounds *)

Lemma hash_chain_names H algo n :
  forall m, Forall (fun call => fst call = algo) (hash_chain H algo n m).
Proof.
  induction n as [|n IH]; intros m; cbn [hash_chain]; constructor; auto.
Qed.

Section Calls.

Variable hashlib : string -> bytes -> bytes.
Variable algo : string.
Variable iterations : Z.
Variables u v key_length c : nat.
Variable D : bytes.

Hypothesis u_pos : 0 < u.
Hypothesis digest_size : forall m, length (hashlib algo m) = u.

(** Every round appends the calls of step 6A, and nothing else. *)
Lemma main_loop_calls rounds :
  forall i st l,
    exists st' calls,
      main_loop hashlib algo iterations u v key_length c D rounds i st l
      = (Returns st', l ++ calls)
      /\ length calls = rounds * S (Z.to_nat (iterations + 1 - 2))
      /\ Forall (fun call => fst call = algo) calls.
Proof.
  induction rounds as [|n IH]; intros i [I A] l.
  - exists (I, A), []. cbn [main_loop]. unfold ret. rewrite app_nil_r.
    repeat split. constructor.
  - cbn [main_loop].
    erewrite bind_returns
      by apply (loop_body_run hashlib algo iterations u v key_length c D
                  u_pos digest_size).
    destruct (IH (S i)
                 (if i <? c then next_I hashlib algo iterations v D I else I,
                  step_7 u key_length i A (block hashlib algo iterations D I))
                 (l ++ block_calls hashlib algo iterations D I))
      as (st' & calls & Hrun & Hlen & Hnames).
    exists st', (block_calls hashlib algo iterations D I ++ calls).
    rewrite Hrun, app_assoc. split; [reflexivity|]. split.
    + rewrite length_app, Hlen. unfold block_calls.
      rewrite hash_chain_length. lia.
    + apply Forall_app. split; [apply hash_chain_names | exact Hnames].
Qed.

End Calls.

Lemma byte_of_to_N (b : byte) : byte_of_N (Byte.to_N b) = b.
Proof.
  unfold byte_of_N, byte_of_Z.
  pose proof (Byte.to_N_bounded b).
  rewrite Z.mod_small by lia.
  rewrite N2Z.id, Byte.of_to_N. reflexivity.
Qed.

(** ** Passwords of ASCII characters *)

Lemma utf8_decode_ascii_bytes (p : bytes) :
  Forall (fun b => (Byte.to_N b <= 127)%N) p ->
  utf8_decode p = Some (map Byte.to_N p).
Proof.
  induction 1 as [|b p Hb _ IH]; [reflexivity|].
  cbn [utf8_decode map]. cbv zeta.
  apply N.leb_le in Hb. rewrite Hb, IH. reflexivity.
Qed.

Lemma utf16be_encode_ascii (p : bytes) :
  Forall (fun b => (Byte.to_N b <= 127)%N) p ->
  utf16be_encode (map Byte.to_N p)
  = Some (concat (map (fun b => [x00; b]) p)).
Proof.
  induction 1 as [|b p Hb _ IH]; [reflexivity|].
  cbn [utf16be_encode map concat]. cbv zeta. rewrite IH.
  rewrite in_range_false by lia.
  destruct (N.ltb_spec (Byte.to_N b) 0x10000) as [_|Hge]; [|lia].
  unfold unit16be. rewrite N.div_small by lia.
  rewrite byte_of_to_N. reflexivity.
Qed.

(** X4.  A password of ASCII characters is hashed as its bytes, each after
    a zero byte, followed by the two-byte terminator: [2 * len + 2] bytes,
    no digest computed by the encoding. *)
Theorem ascii_password_encoding (password : bytes) (l : log) :
  Forall (fun b => (Byte.to_N b <= 127)%N) password ->
  utf16_password_of password l
  = (Returns (concat (map (fun b => [x00; b]) password) ++ [x00; x00]), l)
  /\ length (concat (map (fun b => [x00; b]) password) ++ [x00; x00])
     = 2 * length password + 2.
Proof.
  intros Hp. split.
  - unfold utf16_password_of.
    rewrite (utf8_decode_ascii_bytes password Hp).
    rewrite (utf16be_encode_ascii password Hp). reflexivity.
  - rewrite length_app. cbn [length]. f_equal.
    clear Hp. induction password as [|b p IH]; [reflexivity|].
    cbn [map concat app length]. rewrite IH. lia.
Qed.

(** ** Arguments that are not integers *)

(** X1.  An [iterations] or a [key_length] that is not an integer is
    rejected with a [ValueError] that names the parameter and the class of
    the value, after the checks before it have passed and before any digest
    is computed. *)
Theorem non_integer_arguments_rejected
        (hashlib : string -> bytes -> bytes)
        (h it kl id : pyval) (p s : bytes) (n : Z) (l : log) :
  ((forall x, it <> PyInt x) ->
   pkcs12_kdf hashlib h (PyBytes p) (PyBytes s) it kl id l
   = (Raises (Exception ValueError
                (iterations_must_be_an_integer_not (class_name it))), l))
  /\ ((1 <= n)%Z -> (forall x, kl <> PyInt x) ->
      pkcs12_kdf hashlib h (PyBytes p) (PyBytes s) (PyInt n) kl id l
      = (Raises (Exception ValueError
                   (key_length_must_be_an_integer_not (class_name kl))), l)).
Proof.
  split.
  - apply reject_iterations_type.
  - apply reject_key_length_type.
Qed.

(** ** Whole calls *)

Lemma stretch_length_mod (v : nat) (src X : bytes) :
  stretch v src = Some X -> length X mod v = 0.
Proof.
  intros HX. destruct (stretch_ends v src) as (X' & HX' & Hlen).
  assert (X' = X) by congruence. subst X'.
  rewrite Hlen. destruct (bytes_eqb src []); [apply Nat.Div0.mod_0_l|].
  rewrite Nat.mul_comm. apply Nat.Div0.mod_mul.
Qed.

(** Two calls whose passwords and salts give the same [S] and [P] are the
    same computation. *)
Lemma same_blocks_same_call
      (hashlib : string -> bytes -> bytes)
      algo (p1 p2 s1 s2 : bytes) iterations key_length id_ u e1 e2 l :
  u_table algo = Some u ->
  (1 <= iterations)%Z -> (1 <= key_length)%Z -> In id_ [1; 2; 3]%Z ->
  utf16_password_of p1 l = (Returns e1, l) ->
  utf16_password_of p2 l = (Returns e2, l) ->
  stretch (v_of algo) s1 = stretch (v_of algo) s2 ->
  stretch (v_of algo) e1 = stretch (v_of algo) e2 ->
  pkcs12_kdf hashlib (PyStr algo) (PyBytes p1) (PyBytes s1) (PyInt iterations)
             (PyInt key_length) (PyInt id_) l
  = pkcs12_kdf hashlib (PyStr algo) (PyBytes p2) (PyBytes s2) (PyInt iterations)
               (PyInt key_length) (PyInt id_) l.
Proof.
  intros Hu Hn Hk Hi H1 H2 Hs He.
  rewrite (pkcs12_kdf_checked hashlib algo p1 s1 iterations key_length id_ u e1 l)
    by assumption.
  rewrite (pkcs12_kdf_checked hashlib algo p2 s2 iterations key_length id_ u e2 l)
    by assumption.
  unfold stretched. rewrite Hs, He. reflexivity.
Qed.

Lemma stretch_zeros (v m : nat) :
  0 < v -> 0 < m ->
  stretch v (repeat x00 m) = Some (repeat x00 (v * ceil_div m v)).
Proof.
  intros Hv Hm.
  assert (Hne : repeat x00 m <> []) by (destruct m; [lia | discriminate]).
  destruct (stretch_spec v (repeat x00 m) Hne) as (X & HX & Hlen & Hnth).
  rewrite repeat_length in Hlen, Hnth.
  rewrite HX. f_equal. apply nth_error_ext. intros i.
  destruct (Nat.lt_ge_cases i (length X)) as [Hi|Hi].
  - rewrite Hnth by exact Hi.
    rewrite !nth_error_repeat; auto; [lia|].
    apply Nat.mod_upper_bound. lia.
  - rewrite (proj2 (nth_error_None X i) Hi). symmetry.
    apply nth_error_None. rewrite repeat_length. lia.
Qed.

Lemma ceil_div_one (n d : nat) : 0 < n <= d -> ceil_div n d = 1.
Proof.
  intros Hn. pose proof (ceil_div_bounds n d ltac:(lia)). nia.
Qed.

Lemma utf8_decode_zeros (n : nat) :
  utf8_decode (repeat x00 n) = Some (repeat 0%N n).
Proof.
  induction n as [|n IH]; [reflexivity|].
  cbn [repeat utf8_decode]. cbv zeta. cbn [Byte.to_N N.leb N.compare].
  rewrite IH. reflexivity.
Qed.

Lemma utf16be_encode_zeros (n : nat) :
  utf16be_encode (repeat 0%N n) = Some (repeat x00 (2 * n)).
Proof.
  induction n as [|n IH]; [reflexivity|].
  cbn [repeat utf16be_encode]. rewrite IH.
  replace (2 * S n) with (S (S (2 * n))) by lia. reflexivity.
Qed.

Lemma repeat_app_zeros (a b : nat) :
  repeat x00 a ++ repeat x00 b = repeat x00 (a + b).
Proof. symmetry. apply repeat_app. Qed.

Lemma stretch_repeated_salt (v k : nat) (s : bytes) :
  0 < k -> s <> [] -> k * length s <= v ->
  stretch v (concat (repeat s k)) = stretch v s.
Proof.
  intros Hk Hs Hv.
  assert (Hlen0 : 0 < length s) by (destruct s; [congruence | cbn; lia]).
  assert (Hne : concat (repeat s k) <> []).
  { intros E. apply (f_equal (@length byte)) in E.
    rewrite length_concat_repeat in E. cbn in E. nia. }
  destruct (stretch_spec v s Hs) as (X & HX & Hlen & Hnth).
  destruct (stretch_spec v (concat (repeat s k)) Hne)
    as (X' & HX' & Hlen' & Hnth').
  rewrite length_concat_repeat in Hlen', Hnth'.
  rewrite (ceil_div_one (length s) v) in Hlen by nia.
  rewrite (ceil_div_one (k * length s) v) in Hlen' by nia.
  rewrite HX, HX'. f_equal. apply nth_error_ext. intros i.
  destruct (Nat.lt_ge_cases i (length X)) as [Hi|Hi].
  - rewrite Hnth' by lia. rewrite Hnth by exact Hi.
    rewrite nth_error_concat_repeat by (apply Nat.mod_upper_bound; nia).
    f_equal.
    rewrite (Nat.mul_comm k), Nat.Div0.mod_mul_r.
    rewrite (Nat.mul_comm (length s) ((i / length s) mod k)).
    rewrite Nat.Div0.mod_add. apply Nat.Div0.mod_mod.
  - rewrite (proj2 (nth_error_None X i) Hi).
    apply nth_error_None. lia.
Qed.

(** X12.  A password of [n] zero bytes, [2 * n + 2 <= v], derives what the
    empty password derives: both give the block [P] of [v] zero bytes, and
    the two calls are the same computation, digest calls included. *)
Theorem nul_passwords_collide
        (hashlib : string -> bytes -> bytes)
        (algo : string) (u n : nat) (salt : bytes)
        (iterations key_length id_ : Z) (l : log) :
  u_table algo = Some u ->
  (1 <= iterations)%Z -> (1 <= key_length)%Z -> In id_ [1; 2; 3]%Z ->
  2 * n + 2 <= v_of algo ->
  stretch (v_of algo) (repeat x00 (2 * n) ++ [x00; x00])
  = Some (repeat x00 (v_of algo))
  /\ pkcs12_kdf hashlib (PyStr algo) (PyBytes (repeat x00 n)) (PyBytes salt)
                (PyInt iterations) (PyInt key_length) (PyInt id_) l
     = pkcs12_kdf hashlib (PyStr algo) (PyBytes []) (PyBytes salt)
                  (PyInt iterations) (PyInt key_length) (PyInt id_) l.
Proof.
  intros Hu Hn Hk Hi Hv.
  pose proof (v_of_pos algo) as Hvpos.
  assert (HP : forall m, 0 < m <= v_of algo ->
                         stretch (v_of algo) (repeat x00 m)
                         = Some (repeat x00 (v_of algo))).
  { intros m Hm. rewrite stretch_zeros by lia.
    rewrite ceil_div_one by lia. now rewrite Nat.mul_1_r. }
  assert (Hcat : repeat x00 (2 * n) ++ [x00; x00] = repeat x00 (2 * n + 2)).
  { change [x00; x00] with (repeat x00 2). apply repeat_app_zeros. }
  split; [rewrite Hcat; apply HP; lia|].
  apply (same_blocks_same_call hashlib algo (repeat x00 n) [] salt salt
           iterations key_length id_ u
           (repeat x00 (2 * n) ++ [x00; x00]) [x00; x00] l);
    try assumption; try reflexivity.
  - unfold utf16_password_of.
    rewrite utf8_decode_zeros, utf16be_encode_zeros. reflexivity.
  - rewrite Hcat. rewrite HP by lia.
    change [x00; x00] with (repeat x00 2). rewrite HP by lia. reflexivity.
Qed.

Lemma concat_repeat_nil (k : nat) : concat (repeat (@nil byte) k) = [].
Proof. induction k as [|k IH]; [reflexivity|]. cbn [repeat concat app]. exact IH. Qed.

(** X13.  A salt written [k] times, [k * len(salt) <= v], derives what the
    salt derives: both give the same block [S], and the two calls are the
    same computation, whatever they end in. *)
Theorem repeated_salt_collides
        (hashlib : string -> bytes -> bytes)
        (algo : string) (u k : nat) (password salt : bytes)
        (iterations key_length id_ : Z) (l : log) :
  u_table algo = Some u ->
  (1 <= iterations)%Z -> (1 <= key_length)%Z -> In id_ [1; 2; 3]%Z ->
  0 < k -> k * length salt <= v_of algo ->
  stretch (v_of algo) (concat (repeat salt k)) = stretch (v_of algo) salt
  /\ pkcs12_kdf hashlib (PyStr algo) (PyBytes password)
                (PyBytes (concat (repeat salt k)))
                (PyInt iterations) (PyInt key_length) (PyInt id_) l
     = pkcs12_kdf hashlib (PyStr algo) (PyBytes password) (PyBytes salt)
                  (PyInt iterations) (PyInt key_length) (PyInt id_) l.
Proof.
  intros Hu Hn Hk Hi Hpos Hv.
  assert (Hs : stretch (v_of algo) (concat (repeat salt k))
               = stretch (v_of algo) salt).
  { destruct salt as [|b s].
    - now rewrite concat_repeat_nil.
    - apply stretch_repeated_salt; [exact Hpos | discriminate | exact Hv]. }
  split; [exact Hs|].
  destruct (utf8_decode password) as [t|] eqn:Hd.
  - destruct (utf16_password_of_decodable password t l Hd) as (e & _ & Hp).
    apply (same_blocks_same_call hashlib algo password password _ salt
             iterations key_length id_ u _ _ l Hu Hn Hk Hi Hp Hp Hs eq_refl).
  - assert (Hsup : supported algo) by (apply u_table_supported; eauto).
    rewrite !pkcs12_kdf_undecodable by assumption. reflexivity.
Qed.

Section Whole.

Variable hashlib : string -> bytes -> bytes.

Hypothesis digest_size :
  forall algo u m, u_table algo = Some u -> length (hashlib algo m) = u.

Local Abbreviation kdf := (pkcs12_kdf hashlib).

(** X5.  A call that passes the checks with a password that decodes returns
    the first [key_length] bytes of the block stream: block [A_1] is the
    iterated digest of [D + I] for [I = S + P], and each later block is
    the iterated digest of [D + I] for the [I] that steps 6B and 6C made of
    the [I] and the block before.  The accumulator [A] and its slices
    compute nothing else. *)
Theorem key_is_start_of_block_stream
        (algo : string) (u : nat) (password salt : bytes)
        (iterations key_length id_ : Z) (t : text) (l : log) :
  u_table algo = Some u ->
  (1 <= iterations)%Z -> (1 <= key_length)%Z -> In id_ [1; 2; 3]%Z ->
  utf8_decode password = Some t ->
  exists e S P l',
    utf16_password_of password l = (Returns e, l)
    /\ stretch (v_of algo) salt = Some S
    /\ stretch (v_of algo) e = Some P
    /\ kdf (PyStr algo) (PyBytes password) (PyBytes salt) (PyInt iterations)
           (PyInt key_length) (PyInt id_) l
       = (Returns
            (firstn (Z.to_nat key_length)
                    (keystream hashlib algo iterations (v_of algo)
                               (D_of id_ (v_of algo))
                               (ceil_div (Z.to_nat key_length) u) (S ++ P))),
          l')
    /\ length (keystream hashlib algo iterations (v_of algo)
                         (D_of id_ (v_of algo))
                         (ceil_div (Z.to_nat key_length) u) (S ++ P))
       = ceil_div (Z.to_nat key_length) u * u.
Proof.
  intros Hu Hn Hk Hi Hd.
  destruct (pkcs12_kdf_accepted hashlib digest_size algo password salt
              iterations key_length id_ u t l Hu Hn Hk Hi Hd)
    as (e & rest & He & Hrun).
  destruct (stretch_ends (v_of algo) salt) as (S & HS & _).
  destruct (stretch_ends (v_of algo) (e ++ [x00; x00])) as (P & HP & _).
  unfold stretched in Hrun. rewrite HS, HP in Hrun.
  exists (e ++ [x00; x00]), S, P. eexists.
  split; [unfold utf16_password_of; now rewrite Hd, He|].
  split; [exact HS|]. split; [exact HP|]. split; [exact Hrun|].
  apply keystream_length; [eapply u_table_pos; eassumption|].
  intros m. now apply digest_size.
Qed.

(** X6.  A call that returns has made [ceil(key_length / u) * iterations]
    digest calls, all with the algorithm of the call. *)
Theorem digest_call_count
        (algo : string) (u : nat) (password salt : bytes)
        (iterations key_length id_ : Z) (t : text) (l : log) :
  u_table algo = Some u ->
  (1 <= iterations)%Z -> (1 <= key_length)%Z -> In id_ [1; 2; 3]%Z ->
  utf8_decode password = Some t ->
  exists out calls,
    kdf (PyStr algo) (PyBytes password) (PyBytes salt) (PyInt iterations)
        (PyInt key_length) (PyInt id_) l
    = (Returns out, l ++ calls)
    /\ length calls
       = ceil_div (Z.to_nat key_length) u * Z.to_nat iterations
    /\ Forall (fun call => fst call = algo) calls.
Proof.
  intros Hu Hn Hk Hi Hd.
  destruct (utf16_password_of_decodable password t l Hd) as (e & _ & Hp).
  rewrite (pkcs12_kdf_checked hashlib algo password salt iterations key_length
             id_ u _ l Hu Hn Hk Hi Hp).
  destruct (main_loop_calls hashlib algo iterations u (v_of algo)
              (Z.to_nat key_length) (ceil_div (Z.to_nat key_length) u)
              (D_of id_ (v_of algo)) (u_table_pos _ _ Hu)
              (fun m => digest_size algo u m Hu)
              (ceil_div (Z.to_nat key_length) u) 1
              (stretched (v_of algo) salt
               ++ stretched (v_of algo) (e ++ [x00; x00]),
               repeat x00 (ceil_div (Z.to_nat key_length) u * u)) l)
    as (st' & calls & Hrun & Hlen & Hnames).
  erewrite bind_returns by exact Hrun.
  eexists _, calls. split; [reflexivity|]. split; [|exact Hnames].
  rewrite Hlen. f_equal. lia.
Qed.

End Whole.

Section Keys.

Variable hashlib : string -> bytes -> bytes.

Hypothesis digest_size :
  forall algo u m, u_table algo = Some u -> length (hashlib algo m) = u.

Local Abbreviation kdf := (pkcs12_kdf hashlib).

Lemma single_block_run
        (algo : string) (u : nat) (password salt : bytes)
        (iterations key_length id_ : Z) (t : text) (l : log) :
  u_table algo = Some u ->
  (1 <= iterations)%Z -> In id_ [1; 2; 3]%Z ->
  (1 <= key_length <= Z.of_nat u)%Z ->
  utf8_decode password = Some t ->
  exists e S P,
    utf16_password_of password l = (Returns e, l)
    /\ stretch (v_of algo) salt = Some S
    /\ stretch (v_of algo) e = Some P
    /\ kdf (PyStr algo) (PyBytes password) (PyBytes salt) (PyInt iterations)
           (PyInt key_length) (PyInt id_) l
       = (Returns
            (firstn (Z.to_nat key_length)
                    (Nat.iter (Z.to_nat iterations) (hashlib algo)
                              (D_of id_ (v_of algo) ++ S ++ P))),
          l ++ hash_chain (hashlib algo) algo (Z.to_nat iterations)
                          (D_of id_ (v_of algo) ++ S ++ P)).
Proof.
  intros Hu Hn Hi Hk Hd.
  destruct (utf16_password_of_decodable password t l Hd) as (e & _ & Hp).
  destruct (stretch_ends (v_of algo) salt) as (S & HS & _).
  destruct (stretch_ends (v_of algo) (e ++ [x00; x00])) as (P & HP & _).
  exists (e ++ [x00; x00]), S, P.
  split; [exact Hp|]. split; [exact HS|]. split; [exact HP|].
  pose proof (u_table_pos _ _ Hu) as Hupos.
  rewrite (pkcs12_kdf_checked hashlib algo password salt iterations key_length
             id_ u _ l Hu Hn ltac:(lia) Hi Hp).
  unfold stretched. rewrite HS, HP.
  rewrite (ceil_div_one (Z.to_nat key_length) u) by lia.
  cbn [main_loop].
  erewrite bind_returns.
  2:{ erewrite bind_returns.
      2:{ apply (loop_body_run hashlib algo iterations u (v_of algo)
                   (Z.to_nat key_length) 1 (D_of id_ (v_of algo)) Hupos
                   (fun m => digest_size algo u m Hu)). }
      reflexivity. }
  unfold ret. cbn [snd Nat.ltb Nat.leb].
  assert (Hcount : Datatypes.S (Z.to_nat (iterations + 1 - 2))
                   = Z.to_nat iterations) by lia.
  assert (Hblock : block hashlib algo iterations (D_of id_ (v_of algo)) (S ++ P)
                   = Nat.iter (Z.to_nat iterations) (hashlib algo)
                              (D_of id_ (v_of algo) ++ S ++ P)).
  { unfold block. rewrite <- Hcount, Nat.iter_succ_r. reflexivity. }
  unfold block_calls. rewrite Hcount, Hblock. f_equal. f_equal.
  pose proof (step_7_written u (Z.to_nat key_length) Hupos 1
                (repeat x00 (1 * u))
                (Nat.iter (Z.to_nat iterations) (hashlib algo)
                          (D_of id_ (v_of algo) ++ S ++ P))) as Hw.
  replace (Nat.min (Z.to_nat key_length) u) with (Z.to_nat key_length) in Hw
    by lia.
  cbn [Nat.sub Nat.mul Nat.add firstn app] in Hw.
  unfold slice at 1. rewrite skipn_O. apply Hw.
  - rewrite <- Hblock.
    apply (block_length hashlib algo iterations u (D_of id_ (v_of algo))
             (fun m => digest_size algo u m Hu)).
  - rewrite repeat_length. lia.
Qed.


Lemma hash_chain_last H algo n :
  forall m, hash_chain H algo (S n) m
            = hash_chain H algo n m ++ [(algo, Nat.iter n H m)].
Proof.
  induction n as [|n IH]; intros m; [reflexivity|].
  change (hash_chain H algo (S (S n)) m)
    with ((algo, m) :: hash_chain H algo (S n) (H m)).
  rewrite IH. cbn [hash_chain app]. now rewrite Nat.iter_succ_r.
Qed.

(** X14.  For a key of exactly [u] bytes, one more iteration is one more
    digest: the call with [iterations + 1] returns the digest of the key
    that the call with [iterations] returns, and makes the same digest
    calls followed by that one. *)
Theorem one_more_iteration_hashes_the_key
        (algo : string) (u : nat) (password salt : bytes)
        (iterations id_ : Z) (t : text) (l : log) :
  u_table algo = Some u ->
  (1 <= iterations)%Z -> In id_ [1; 2; 3]%Z ->
  utf8_decode password = Some t ->
  exists key l1,
    kdf (PyStr algo) (PyBytes password) (PyBytes salt) (PyInt iterations)
        (PyInt (Z.of_nat u)) (PyInt id_) l
    = (Returns key, l1)
    /\ kdf (PyStr algo) (PyBytes password) (PyBytes salt)
           (PyInt (iterations + 1)) (PyInt (Z.of_nat u)) (PyInt id_) l
       = (Returns (hashlib algo key), l1 ++ [(algo, key)]).
Proof.
  intros Hu Hn Hi Hd.
  pose proof (u_table_pos _ _ Hu) as Hupos.
  destruct (single_block_run algo u password salt iterations (Z.of_nat u) id_
              t l Hu Hn Hi ltac:(lia) Hd)
    as (e & S0 & P0 & Hp & HS & HP & Hrun).
  destruct (single_block_run algo u password salt (iterations + 1)
              (Z.of_nat u) id_ t l Hu ltac:(lia) Hi ltac:(lia) Hd)
    as (e' & S1 & P1 & Hp' & HS' & HP' & Hrun').
  assert (e' = e) by congruence. subst e'.
  assert (S1 = S0) by congruence. assert (P1 = P0) by congruence. subst S1 P1.
  assert (Hfull : forall n, (0 < n)%nat ->
            firstn (Z.to_nat (Z.of_nat u))
                   (Nat.iter n (hashlib algo) (D_of id_ (v_of algo) ++ S0 ++ P0))
            = Nat.iter n (hashlib algo) (D_of id_ (v_of algo) ++ S0 ++ P0)).
  { intros n Hpos. apply firstn_all2. rewrite Nat2Z.id.
    destruct n as [|n]; [lia|]. rewrite Nat.iter_succ.
    rewrite (digest_size algo u _ Hu). lia. }
  rewrite Hfull in Hrun by lia. rewrite Hfull in Hrun' by lia.
  replace (Z.to_nat (iterations + 1)) with (Datatypes.S (Z.to_nat iterations))
    in Hrun' by lia.
  rewrite hash_chain_last, Nat.iter_succ in Hrun'.
  eexists _, _. split; [exact Hrun|].
  rewrite <- app_assoc. exact Hrun'.
Qed.

(** X8.  For the same other arguments, the key returned for a length is the
    start of the key returned for any greater length. *)
Theorem key_is_prefix_of_longer_key
        (h pw s it id : pyval) (k1 k2 : Z) (l1 l2 l1' : log) (out1 : bytes) :
  (k1 <= k2)%Z ->
  kdf h pw s it (PyInt k1) id l1 = (Returns out1, l1') ->
  exists out2 l2',
    kdf h pw s it (PyInt k2) id l2 = (Returns out2, l2')
    /\ firstn (Z.to_nat k1) out2 = out1
    /\ Z.of_nat (length out1) = k1.
Proof.
  intros Hle Hr.
  destruct (key_prefix hashlib digest_size h pw s it id k1 k2 l1 l2 out1 l1'
              Hle Hr) as (out2 & l2' & Hr2 & Hpre).
  exists out2, l2'. split; [exact Hr2|]. split; [exact Hpre|].
  destruct (pkcs12_kdf_returns_inv hashlib digest_size _ _ _ _ _ _ _ _ _ Hr)
    as (algo & p & b & n & k & i & u & t & e & _ & _ & _ & _ & [= <-] & _
        & Hu & _ & Hk & _ & _ & _ & ->).
  rewrite length_firstn.
  rewrite (keystream_length hashlib algo n u (v_of algo) (D_of i (v_of algo))
             (u_table_pos _ _ Hu) (fun m => digest_size algo u m Hu)).
  pose proof (ceil_div_bounds (Z.to_nat k1) u (u_table_pos _ _ Hu)). nia.
Qed.

(** X11.  Calls that differ in [id_] alone hash different messages first:
    the two messages differ, and they are the same after their first [v]
    bytes, which are [v] copies of the byte [id_]. *)
Theorem seeds_differ_by_id
        (algo : string) (u : nat) (password salt : bytes)
        (iterations key_length i1 i2 : Z) (t : text) (l : log) :
  u_table algo = Some u ->
  (1 <= iterations)%Z -> (1 <= key_length)%Z ->
  In i1 [1; 2; 3]%Z -> In i2 [1; 2; 3]%Z -> i1 <> i2 ->
  utf8_decode password = Some t ->
  exists I out1 out2 rest1 rest2,
    kdf (PyStr algo) (PyBytes password) (PyBytes salt) (PyInt iterations)
        (PyInt key_length) (PyInt i1) l
    = (Returns out1, l ++ (algo, D_of i1 (v_of algo) ++ I) :: rest1)
    /\ kdf (PyStr algo) (PyBytes password) (PyBytes salt) (PyInt iterations)
           (PyInt key_length) (PyInt i2) l
       = (Returns out2, l ++ (algo, D_of i2 (v_of algo) ++ I) :: rest2)
    /\ D_of i1 (v_of algo) ++ I <> D_of i2 (v_of algo) ++ I
    /\ length (D_of i1 (v_of algo)) = v_of algo
    /\ Forall (eq (byte_of_Z i1)) (D_of i1 (v_of algo)).
Proof.
  intros Hu Hn Hk H1 H2 Hne Hd.
  destruct (pkcs12_kdf_accepted hashlib digest_size algo password salt
              iterations key_length i1 u t l Hu Hn Hk H1 Hd)
    as (e & rest1 & He & Hrun1).
  destruct (pkcs12_kdf_accepted hashlib digest_size algo password salt
              iterations key_length i2 u t l Hu Hn Hk H2 Hd)
    as (e' & rest2 & He' & Hrun2).
  assert (e' = e) by congruence. subst e'.
  eexists _, _, _, rest1, rest2.
  split; [exact Hrun1|]. split; [exact Hrun2|].
  split; [|split].
  - intros E. apply app_inv_tail in E. unfold D_of in E.
    pose proof (v_of_pos algo) as Hv.
    destruct (v_of algo) as [|v']; [lia|]. cbn [repeat] in E.
    injection E as E _.
    cbn [In] in H1, H2.
    destruct H1 as [<-|[<-|[<-|[]]]]; destruct H2 as [<-|[<-|[<-|[]]]];
      try congruence; discriminate E.
  - apply repeat_length.
  - apply Forall_forall. intros b Hb. symmetry.
    eapply repeat_spec. exact Hb.
Qed.

(** X2.  The buffers the loop starts from: [D] is [v] bytes, [S] is empty
    for an empty salt and otherwise has the first multiple of [v] that is
    at least [len(salt)] bytes, [P] has at least [v] bytes and a multiple
    of [v]; so [I = S + P] is a positive multiple of [v] bytes, and the
    first digest is over [D + S + P]. *)
Theorem initial_blocks_lengths
        (algo : string) (u : nat) (password salt : bytes)
        (iterations key_length id_ : Z) (t : text) (l : log) :
  u_table algo = Some u ->
  (1 <= iterations)%Z -> (1 <= key_length)%Z -> In id_ [1; 2; 3]%Z ->
  utf8_decode password = Some t ->
  exists e S P out rest,
    utf16_password_of password l = (Returns e, l)
    /\ stretch (v_of algo) salt = Some S
    /\ stretch (v_of algo) e = Some P
    /\ kdf (PyStr algo) (PyBytes password) (PyBytes salt) (PyInt iterations)
           (PyInt key_length) (PyInt id_) l
       = (Returns out, l ++ (algo, D_of id_ (v_of algo) ++ S ++ P) :: rest)
    /\ length (D_of id_ (v_of algo)) = v_of algo
    /\ length S = (if bytes_eqb salt [] then 0
                   else v_of algo * ceil_div (length salt) (v_of algo))
    /\ length P = v_of algo * ceil_div (length e) (v_of algo)
    /\ v_of algo <= length P
    /\ length (S ++ P) mod v_of algo = 0.
Proof.
  intros Hu Hn Hk Hi Hd.
  destruct (pkcs12_kdf_accepted hashlib digest_size algo password salt
              iterations key_length id_ u t l Hu Hn Hk Hi Hd)
    as (e & rest & He & Hrun).
  destruct (stretch_ends (v_of algo) salt) as (S & HS & HSlen).
  destruct (stretch_ends (v_of algo) (e ++ [x00; x00])) as (P & HP & HPlen).
  unfold stretched in Hrun. rewrite HS, HP in Hrun.
  assert (Hne : bytes_eqb (e ++ [x00; x00]) [] = false).
  { destruct (bytes_eqb (e ++ [x00; x00]) []) eqn:E; [|reflexivity].
    apply bytes_eqb_nil, app_eq_nil in E. destruct E. discriminate. }
  rewrite Hne in HPlen.
  pose proof (v_of_pos algo) as Hv.
  assert (Hpos : 0 < length (e ++ [x00; x00])).
  { rewrite length_app. cbn [length]. lia. }
  pose proof (ceil_div_pos _ _ Hv Hpos) as Hc.
  exists (e ++ [x00; x00]), S, P. eexists _, rest.
  split; [unfold utf16_password_of; now rewrite Hd, He|].
  split; [exact HS|]. split; [exact HP|]. split; [exact Hrun|].
  split; [apply repeat_length|]. split; [exact HSlen|].
  split; [exact HPlen|]. split; [nia|].
  rewrite length_app, Nat.Div0.add_mod.
  rewrite (stretch_length_mod _ _ _ HS), (stretch_length_mod _ _ _ HP).
  apply Nat.Div0.mod_0_l.
Qed.

End Keys.

(** ** Steps 6B and 6C *)

Section Chunks.

Local Open Scope Z_scope.

Lemma step_6C_chunk_full (v : nat) (B : Z) (I : bytes) (j : nat) :
  (0 < v)%nat -> ((j + 1) * v <= length I)%nat -> 1 <= B <= 256 ^ Z.of_nat v ->
  256 ^ Z.of_nat (v - 1)
  <= int_from_bytes (slice I (j * v) ((j + 1) * v)) + B ->
  step_6C_chunk v B I j
  = firstn (j * v) I
    ++ to_bytes v (int_from_bytes (slice I (j * v) ((j + 1) * v)) + B)
    ++ skipn ((j + 1) * v) I.
Proof.
  intros Hv Hj HB Hge.
  assert (Hc : length (slice I (j * v) ((j + 1) * v)) = v).
  { unfold slice. rewrite length_skipn, length_firstn. lia. }
  destruct (chunk_replacement v B (slice I (j * v) ((j + 1) * v)) Hv Hc HB)
    as [Hfull _].
  unfold step_6C_chunk. cbv zeta. rewrite (Hfull Hge).
  unfold slice at 1, slice_from. rewrite skipn_O. reflexivity.
Qed.

(** X9.  The replacement of chunk [j] of [I] in step 6C, for a chunk that
    lies within [I].  When the sum of the chunk and [B] is at least
    [256 ^ (v - 1)], the chunk is replaced by the [v] low-order bytes of
    the sum, the bytes before and after it stay, and [I] keeps its length:
    the new chunk is the sum modulo [256 ^ v].  When the sum is smaller,
    the replacement has fewer than [v] bytes and [I] gets shorter. *)
Theorem chunk_update_arithmetic (v : nat) (B : Z) (I : bytes) (j : nat) :
  (0 < v)%nat -> ((j + 1) * v <= length I)%nat -> 1 <= B <= 256 ^ Z.of_nat v ->
  (256 ^ Z.of_nat (v - 1)
   <= int_from_bytes (slice I (j * v) ((j + 1) * v)) + B ->
   step_6C_chunk v B I j
   = firstn (j * v) I
     ++ to_bytes v (int_from_bytes (slice I (j * v) ((j + 1) * v)) + B)
     ++ skipn ((j + 1) * v) I
   /\ length (step_6C_chunk v B I j) = length I
   /\ int_from_bytes
        (to_bytes v (int_from_bytes (slice I (j * v) ((j + 1) * v)) + B))
      = (int_from_bytes (slice I (j * v) ((j + 1) * v)) + B)
        mod 256 ^ Z.of_nat v)
  /\ (int_from_bytes (slice I (j * v) ((j + 1) * v)) + B
      < 256 ^ Z.of_nat (v - 1) ->
      (length (step_6C_chunk v B I j) < length I)%nat).
Proof.
  intros Hv Hj HB.
  destruct (step_6C_chunk_length v B I j Hv Hj HB) as [Hkeep Hshort].
  split; [|exact Hshort].
  intros Hge. split; [now apply step_6C_chunk_full|].
  split; [now apply Hkeep | apply int_from_to_bytes].
Qed.

Lemma slice_chunk (pre c rest : bytes) (j v : nat) :
  length pre = (j * v)%nat -> length c = v ->
  slice (pre ++ c ++ rest) (j * v) ((j + 1) * v) = c
  /\ firstn (j * v) (pre ++ c ++ rest) = pre
  /\ skipn ((j + 1) * v) (pre ++ c ++ rest) = rest.
Proof.
  intros Hp Hc.
  replace ((j + 1) * v)%nat with (length pre + length c)%nat by lia.
  rewrite <- Hp. unfold slice.
  rewrite firstn_app_2, firstn_app, Nat.sub_diag, firstn_O, app_nil_r.
  rewrite firstn_all, skipn_app, skipn_all, Nat.sub_diag. cbn [skipn app].
  split; [reflexivity|]. split.
  - rewrite firstn_app, firstn_all, Nat.sub_diag, firstn_O.
    now rewrite app_nil_r.
  - rewrite app_assoc, <- length_app, skipn_app, skipn_all, Nat.sub_diag.
    reflexivity.
Qed.

(** Over chunks of [v] bytes whose sums with [B] need [v] bytes or more,
    step 6C is chunk-wise addition. *)
Lemma step_6C_chunks (v : nat) (B : Z) :
  (0 < v)%nat -> 1 <= B <= 256 ^ Z.of_nat v ->
  forall todo pre j,
    length pre = (j * v)%nat ->
    Forall (fun c => length c = v
                     /\ 256 ^ Z.of_nat (v - 1) <= int_from_bytes c + B) todo ->
    fold_left (step_6C_chunk v B) (seq j (length todo)) (pre ++ concat todo)
    = pre ++ concat (map (fun c => to_bytes v (int_from_bytes c + B)) todo).
Proof.
  intros Hv HB.
  induction todo as [|c todo IH]; intros pre j Hp Hall; [reflexivity|].
  inversion Hall as [|c' todo' [Hc Hsum] Hall']; subst.
  cbn [length seq fold_left concat map].
  destruct (slice_chunk pre c (concat todo) j (length c) Hp eq_refl)
    as (Hsl & Hfi & Hsk).
  rewrite step_6C_chunk_full; try assumption.
  - rewrite Hsl, Hfi, Hsk.
    rewrite (app_assoc pre), (app_assoc pre).
    apply IH; [|exact Hall'].
    rewrite length_app, to_bytes_length. lia.
  - rewrite !length_app. lia.
  - now rewrite Hsl.
Qed.

Lemma length_concat_chunks (v : nat) (cs : list bytes) :
  Forall (fun c => length c = v) cs ->
  length (concat cs) = (length cs * v)%nat.
Proof.
  induction 1 as [|c cs Hc _ IH]; [reflexivity|].
  cbn [concat length]. rewrite length_app, IH, Hc. lia.
Qed.

Lemma byte_to_Z_nonzero (b : byte) : b <> x00 -> 1 <= byte_to_Z b.
Proof.
  intros Hb. pose proof (byte_to_Z_range b) as Hr.
  destruct (Z.eq_dec (byte_to_Z b) 0) as [E|E]; [|lia].
  destruct Hb. rewrite <- (byte_of_to_N b).
  unfold byte_to_Z in E. replace (Byte.to_N b) with 0%N by lia. reflexivity.
Qed.

(** A digest that starts with a byte other than zero makes a [B] above
    [256 ^ (v - 1)]. *)
Lemma B_of_head (v : nat) (b : byte) (rest : bytes) :
  (0 < v)%nat -> b <> x00 ->
  exists B, B_of v (b :: rest) = Some B
            /\ 256 ^ Z.of_nat (v - 1) < B <= 256 ^ Z.of_nat v.
Proof.
  intros Hv Hb.
  destruct (B_of_ends v (b :: rest)) as [B HB]; [discriminate|].
  exists B. split; [exact HB|].
  split; [|now apply (B_of_range v (b :: rest))].
  unfold B_of in HB.
  destruct (while_extend_ends (b :: rest) v ltac:(discriminate) v [])
    as (r & Hr & Hlen); [cbn; lia|].
  destruct (while_extend_repeats (b :: rest) v v 0 r Hr) as [k Hk].
  rewrite Hr in HB. cbn [option_map] in HB. injection HB as <-.
  destruct k as [|k]; [subst r; cbn in Hlen; lia|].
  cbn [repeat concat app] in Hk. subst r.
  destruct v as [|v']; [lia|].
  unfold slice. rewrite skipn_O. cbn [firstn].
  rewrite int_from_bytes_cons, length_firstn.
  cbn [length] in Hlen. apply le_S_n in Hlen.
  rewrite (Nat.min_l _ _ Hlen).
  replace (S v' - 1)%nat with v' by lia.
  pose proof (byte_to_Z_nonzero b Hb) as Hb1.
  pose proof (int_from_bytes_range
                (firstn v' (rest ++ concat (repeat (b :: rest) k)))) as H0.
  assert (0 < 256 ^ Z.of_nat v') by (apply Z.pow_pos_nonneg; lia).
  apply Z.lt_le_trans with (byte_to_Z b * 256 ^ Z.of_nat v' + 0 + 1); [nia|].
  apply Z.add_le_mono_r, Z.add_le_mono_l, H0.
Qed.

End Chunks.

(** X10.  A round that is not the last, whose digest starts with a byte
    other than zero, run on an [I] made of chunks of [v] bytes: [B] is
    above [256 ^ (v - 1)], every chunk is replaced by the [v] low-order
    bytes of its sum with [B], that is by the sum modulo [256 ^ v], and
    [I] keeps its length. *)
Theorem round_with_nonzero_digest_head
        (hashlib : string -> bytes -> bytes)
        (algo : string) (iterations : Z) (u v key_length c i : nat)
        (D A : bytes) (cs : list bytes) (b : byte) (rest : bytes) (l : log) :
  0 < v -> i < c -> (1 <= iterations)%Z ->
  Forall (fun chunk => length chunk = v) cs ->
  Nat.iter (Z.to_nat iterations) (hashlib algo) (D ++ concat cs) = b :: rest ->
  b <> x00 ->
  exists B,
    B_of v (b :: rest) = Some B
    /\ (256 ^ Z.of_nat (v - 1) < B <= 256 ^ Z.of_nat v)%Z
    /\ loop_body hashlib algo iterations u v key_length c D i (concat cs, A) l
       = (Returns
            (concat (map (fun chunk => to_bytes v (int_from_bytes chunk + B)%Z)
                         cs),
             step_7 u key_length i A (b :: rest)),
          l ++ hash_chain (hashlib algo) algo (Z.to_nat iterations)
                          (D ++ concat cs))
    /\ length (concat (map (fun chunk =>
                              to_bytes v (int_from_bytes chunk + B)%Z) cs))
       = length (concat cs)
    /\ forall chunk,
        int_from_bytes (to_bytes v (int_from_bytes chunk + B)%Z)
        = ((int_from_bytes chunk + B) mod 256 ^ Z.of_nat v)%Z.
Proof.
  intros Hv Hi Hn Hcs Hblock Hb.
  destruct (B_of_head v b rest Hv Hb) as (B & HB & HBr).
  exists B. split; [exact HB|]. split; [exact HBr|].
  assert (Hcount : S (Z.to_nat (iterations + 1 - 2)) = Z.to_nat iterations)
    by lia.
  assert (Hblk : block hashlib algo iterations D (concat cs) = b :: rest).
  { unfold block. rewrite <- Hblock, <- Hcount, Nat.iter_succ_r. reflexivity. }
  assert (Hstep : step_6C v B (concat cs)
                  = concat (map (fun chunk =>
                                   to_bytes v (int_from_bytes chunk + B)%Z) cs)).
  { unfold step_6C. rewrite (length_concat_chunks v cs Hcs).
    rewrite Nat.div_mul by lia.
    apply (step_6C_chunks v B Hv ltac:(lia) cs [] 0 eq_refl).
    apply Forall_forall. intros chunk Hin.
    rewrite Forall_forall in Hcs. split; [now apply Hcs|].
    pose proof (int_from_bytes_range chunk). lia. }
  split; [|split].
  - unfold loop_body. cbn [fst snd].
    erewrite bind_returns by apply step_6A_run.
    rewrite Hblk. destruct (Nat.ltb_spec i c); [|lia].
    rewrite HB. unfold block_calls. rewrite Hcount, <- Hstep. reflexivity.
  - rewrite (length_concat_chunks v cs Hcs).
    rewrite (length_concat_chunks v (map _ cs)); [now rewrite length_map|].
    apply Forall_forall. intros x Hx. apply in_map_iff in Hx.
    destruct Hx as (chunk & <- & _). apply to_bytes_length.
  - intros chunk. apply int_from_to_bytes.
Qed.

(** ** The further properties at a call *)

Lemma non_integer_arguments_rejected_witness :
  pkcs12_kdf hashlib_model (PyStr "sha1") (PyBytes [x01]) (PyBytes [x02])
             (PyStr "10") (PyInt 20) (PyInt 1) []
  = (Raises (Exception ValueError (iterations_must_be_an_integer_not "str")),
     [])
  /\ pkcs12_kdf hashlib_model (PyStr "sha1") (PyBytes [x01]) (PyBytes [x02])
                (PyInt 1) PyNone (PyInt 1) []
     = (Raises (Exception ValueError
                  (key_length_must_be_an_integer_not "NoneType")), []).
Proof.
  split.
  - apply (non_integer_arguments_rejected hashlib_model (PyStr "sha1")
             (PyStr "10") (PyInt 20) (PyInt 1) [x01] [x02] 1%Z []).
    discriminate.
  - apply (non_integer_arguments_rejected hashlib_model (PyStr "sha1")
             PyNone PyNone (PyInt 1) [x01] [x02] 1%Z []);
      [lia | discriminate].
Defined.

Lemma stretch_repeats_source_witness :
  exists X,
    stretch 4 [x01; x02; x03] = Some X
    /\ length [x01; x02; x03] <= length X < length [x01; x02; x03] + 4
    /\ length X mod 4 = 0
    /\ (forall i, i < length X ->
                  nth_error X i
                  = nth_error [x01; x02; x03] (i mod length [x01; x02; x03]))
    /\ firstn (length [x01; x02; x03]) X = [x01; x02; x03]
    /\ (length [x01; x02; x03] mod 4 = 0 -> X = [x01; x02; x03]).
Proof.
  apply (stretch_repeats_source 4 [x01; x02; x03]); [lia | discriminate].
Defined.

Lemma ascii_password_encoding_witness :
  utf16_password_of ["a"; "b"]%byte []
  = (Returns (concat (map (fun b => [x00; b]) ["a"; "b"]%byte) ++ [x00; x00]),
     [])
  /\ length (concat (map (fun b => [x00; b]) ["a"; "b"]%byte) ++ [x00; x00])
     = 2 * length ["a"; "b"]%byte + 2.
Proof.
  apply (ascii_password_encoding ["a"; "b"]%byte []).
  apply Forall_cons; [vm_compute; discriminate|].
  apply Forall_cons; [vm_compute; discriminate|].
  apply Forall_nil.
Defined.

Lemma initial_blocks_lengths_witness :
  exists e S P out rest,
    utf16_password_of ["a"]%byte [] = (Returns e, [])
    /\ stretch (v_of "sha1") [x01; x84] = Some S
    /\ stretch (v_of "sha1") e = Some P
    /\ pkcs12_kdf hashlib_model (PyStr "sha1") (PyBytes ["a"]%byte)
                  (PyBytes [x01; x84]) (PyInt 1) (PyInt 40) (PyInt 1) []
       = (Returns out,
          [] ++ ("sha1"%string, D_of 1 (v_of "sha1") ++ S ++ P) :: rest)
    /\ length (D_of 1 (v_of "sha1")) = v_of "sha1"
    /\ length S = (if bytes_eqb [x01; x84] [] then 0
                   else v_of "sha1" * ceil_div (length [x01; x84]) (v_of "sha1"))
    /\ length P = v_of "sha1" * ceil_div (length e) (v_of "sha1")
    /\ v_of "sha1" <= length P
    /\ length (S ++ P) mod v_of "sha1" = 0.
Proof.
  apply (initial_blocks_lengths hashlib_model hashlib_model_size "sha1" 20
           ["a"]%byte [x01; x84] 1 40 1 [97%N] []);
    [reflexivity | lia | lia | cbn [In]; auto | reflexivity].
Defined.

Lemma key_is_start_of_block_stream_witness :
  exists e S P l',
    utf16_password_of ["a"]%byte [] = (Returns e, [])
    /\ stretch (v_of "sha1") [x01; x84] = Some S
    /\ stretch (v_of "sha1") e = Some P
    /\ pkcs12_kdf hashlib_model (PyStr "sha1") (PyBytes ["a"]%byte)
                  (PyBytes [x01; x84]) (PyInt 1) (PyInt 40) (PyInt 1) []
       = (Returns
            (firstn (Z.to_nat 40)
                    (keystream hashlib_model "sha1" 1 (v_of "sha1")
                               (D_of 1 (v_of "sha1"))
                               (ceil_div (Z.to_nat 40) 20) (S ++ P))),
          l')
    /\ length (keystream hashlib_model "sha1" 1 (v_of "sha1")
                         (D_of 1 (v_of "sha1"))
                         (ceil_div (Z.to_nat 40) 20) (S ++ P))
       = ceil_div (Z.to_nat 40) 20 * 20.
Proof.
  apply (key_is_start_of_block_stream hashlib_model hashlib_model_size "sha1" 20
           ["a"]%byte [x01; x84] 1 40 1 [97%N] []);
    [reflexivity | lia | lia | cbn [In]; auto | reflexivity].
Defined.

Lemma digest_call_count_witness :
  exists out calls,
    pkcs12_kdf hashlib_model (PyStr "sha1") (PyBytes ["a"]%byte)
               (PyBytes [x01; x84]) (PyInt 3) (PyInt 45) (PyInt 1) []
    = (Returns out, [] ++ calls)
    /\ length calls = ceil_div (Z.to_nat 45) 20 * Z.to_nat 3
    /\ Forall (fun call => fst call = "sha1"%string) calls.
Proof.
  apply (digest_call_count hashlib_model hashlib_model_size "sha1" 20
           ["a"]%byte [x01; x84] 3 45 1 [97%N] []);
    [reflexivity | lia | lia | cbn [In]; auto | reflexivity].
Defined.


Lemma one_more_iteration_hashes_the_key_witness :
  exists key l1,
    pkcs12_kdf hashlib_model (PyStr "sha1") (PyBytes ["a"]%byte)
               (PyBytes [x01; x84]) (PyInt 2) (PyInt (Z.of_nat 20)) (PyInt 3) []
    = (Returns key, l1)
    /\ pkcs12_kdf hashlib_model (PyStr "sha1") (PyBytes ["a"]%byte)
                  (PyBytes [x01; x84]) (PyInt (2 + 1)) (PyInt (Z.of_nat 20))
                  (PyInt 3) []
       = (Returns (hashlib_model "sha1" key), l1 ++ [("sha1"%string, key)]).
Proof.
  apply (one_more_iteration_hashes_the_key hashlib_model hashlib_model_size
           "sha1" 20 ["a"]%byte [x01; x84] 2 3 [97%N] []);
    [reflexivity | lia | cbn [In]; auto | reflexivity].
Defined.

Lemma key_is_prefix_of_longer_key_witness :
  exists out2 l2',
    pkcs12_kdf hashlib_model (PyStr "sha1") (PyBytes ["a"]%byte)
               (PyBytes [x01; x84]) (PyInt 1) (PyInt 33) (PyInt 1) []
    = (Returns out2, l2')
    /\ firstn (Z.to_nat 7) out2
       = returned []
                  (pkcs12_kdf hashlib_model (PyStr "sha1") (PyBytes ["a"]%byte)
                              (PyBytes [x01; x84]) (PyInt 1) (PyInt 7)
                              (PyInt 1) [])
    /\ Z.of_nat
         (length
            (returned []
               (pkcs12_kdf hashlib_model (PyStr "sha1") (PyBytes ["a"]%byte)
                           (PyBytes [x01; x84]) (PyInt 1) (PyInt 7)
                           (PyInt 1) [])))
       = 7%Z.
Proof.
  apply (key_is_prefix_of_longer_key hashlib_model hashlib_model_size
           (PyStr "sha1") (PyBytes ["a"]%byte) (PyBytes [x01; x84]) (PyInt 1)
           (PyInt 1) 7 33 [] []
           (snd (pkcs12_kdf hashlib_model (PyStr "sha1") (PyBytes ["a"]%byte)
                            (PyBytes [x01; x84]) (PyInt 1) (PyInt 7)
                            (PyInt 1) [])));
    [lia | vm_compute; reflexivity].
Defined.

Lemma seeds_differ_by_id_witness :
  exists I out1 out2 rest1 rest2,
    pkcs12_kdf hashlib_model (PyStr "sha1") (PyBytes ["a"]%byte)
               (PyBytes [x01; x84]) (PyInt 1) (PyInt 20) (PyInt 1) []
    = (Returns out1,
       [] ++ ("sha1"%string, D_of 1 (v_of "sha1") ++ I) :: rest1)
    /\ pkcs12_kdf hashlib_model (PyStr "sha1") (PyBytes ["a"]%byte)
                  (PyBytes [x01; x84]) (PyInt 1) (PyInt 20) (PyInt 3) []
       = (Returns out2,
          [] ++ ("sha1"%string, D_of 3 (v_of "sha1") ++ I) :: rest2)
    /\ D_of 1 (v_of "sha1") ++ I <> D_of 3 (v_of "sha1") ++ I
    /\ length (D_of 1 (v_of "sha1")) = v_of "sha1"
    /\ Forall (eq (byte_of_Z 1)) (D_of 1 (v_of "sha1")).
Proof.
  apply (seeds_differ_by_id hashlib_model hashlib_model_size "sha1" 20
           ["a"]%byte [x01; x84] 1 20 1 3 [97%N] []);
    [reflexivity | lia | lia | cbn [In]; auto | cbn [In]; auto | lia
     | reflexivity].
Defined.

Lemma nul_passwords_collide_witness :
  stretch (v_of "sha1") (repeat x00 (2 * 3) ++ [x00; x00])
  = Some (repeat x00 (v_of "sha1"))
  /\ pkcs12_kdf hashlib_model (PyStr "sha1") (PyBytes (repeat x00 3))
                (PyBytes [x01; x84]) (PyInt 1) (PyInt 20) (PyInt 1) []
     = pkcs12_kdf hashlib_model (PyStr "sha1") (PyBytes [])
                  (PyBytes [x01; x84]) (PyInt 1) (PyInt 20) (PyInt 1) [].
Proof.
  apply (nul_passwords_collide hashlib_model "sha1" 20 3 [x01; x84] 1 20 1 []);
    [reflexivity | lia | lia | cbn [In]; auto | vm_compute; lia].
Defined.

Lemma repeated_salt_collides_witness :
  stretch (v_of "sha1") (concat (repeat [x01; x84] 2))
  = stretch (v_of "sha1") [x01; x84]
  /\ pkcs12_kdf hashlib_model (PyStr "sha1") (PyBytes ["a"]%byte)
                (PyBytes (concat (repeat [x01; x84] 2)))
                (PyInt 1) (PyInt 20) (PyInt 1) []
     = pkcs12_kdf hashlib_model (PyStr "sha1") (PyBytes ["a"]%byte)
                  (PyBytes [x01; x84]) (PyInt 1) (PyInt 20) (PyInt 1) [].
Proof.
  apply (repeated_salt_collides hashlib_model "sha1" 20 2 ["a"]%byte
           [x01; x84] 1 20 1 []);
    [reflexivity | lia | lia | cbn [In]; auto | lia | vm_compute; lia].
Defined.

Lemma chunk_update_arithmetic_witness :
  (length (step_6C_chunk 2 1 [x01; x02; x00; x04] 1)
   < length [x01; x02; x00; x04])
  /\ step_6C_chunk 2 1 [x01; x02; xff; xff] 1
     = firstn (1 * 2) [x01; x02; xff; xff]
       ++ to_bytes 2
            (int_from_bytes (slice [x01; x02; xff; xff] (1 * 2) ((1 + 1) * 2))
             + 1)
       ++ skipn ((1 + 1) * 2) [x01; x02; xff; xff].
Proof.
  split.
  - apply (chunk_update_arithmetic 2 1 [x01; x02; x00; x04] 1);
      [lia | cbn; lia | lia | vm_compute; reflexivity].
  - apply (chunk_update_arithmetic 2 1 [x01; x02; xff; xff] 1);
      [lia | cbn; lia | lia | vm_compute; discriminate].
Defined.

Lemma round_with_nonzero_digest_head_witness :
  exists B,
    B_of 64
         (hd x00 (SHA1.sha1 (D_of 1 64
                             ++ concat [repeat x07 64; repeat x09 64]))
          :: tl (SHA1.sha1 (D_of 1 64
                            ++ concat [repeat x07 64; repeat x09 64])))
    = Some B
    /\ (256 ^ Z.of_nat (64 - 1) < B <= 256 ^ Z.of_nat 64)%Z.
Proof.
  destruct (round_with_nonzero_digest_head hashlib_model "sha1" 1 20 64 40 2 1
              (D_of 1 64) (repeat x00 40) [repeat x07 64; repeat x09 64]
              (hd x00 (SHA1.sha1 (D_of 1 64
                                  ++ concat [repeat x07 64; repeat x09 64])))
              (tl (SHA1.sha1 (D_of 1 64
                              ++ concat [repeat x07 64; repeat x09 64])))
              [])
    as (B & HB & HBr & _).
  - lia.
  - lia.
  - lia.
  - repeat constructor; apply repeat_length.
  - vm_compute. reflexivity.
  - vm_compute. discriminate.
  - exists B. split; [exact HB | exact HBr].
Defined.
